(** * Settings store of the desktop client: load, upgrade, persist, merge, policy

    Shallow embedding of [src/common/settings.js] and of the earlier draft of
    the same module (the unnamed source file, called [Part000] below), with
    the properties the specification states about them.

    Layout of the development:
    - JavaScript values, completions (normal result or thrown exception) and
      the JSON built-ins;
    - the collaborators the module imports ([fs], [path], [winreg],
      [buildConfig], [defaultPreferences], [upgradePreferences]) as explicit
      state or parameters;
    - the functions of the module, in source order;
    - a store model with object identity for the aliasing behaviour of
      [mergeDefaultTeams];
    - the theorems. *)

From stdpp Require Import gmap strings list pretty.
From Stdlib Require Import ZArith Lia Ascii.

Local Open Scope string_scope.
Local Open Scope list_scope.

(** ** JavaScript values *)

(** Values as the module handles them: the primitives, arrays and plain
    objects.  An object is the list of its own properties in insertion
    order. Numbers are the integers the configuration uses (the schema
    version, registry DWORDs). *)
Unset Elimination Schemes.
Inductive val : Type :=
  | Undefined
  | Null
  | Bool (b : bool)
  | Num (n : Z)
  | Str (s : string)
  | Arr (elems : list val)
  | Obj (props : list (string * val)).
Set Elimination Schemes.

(** Induction principle that reaches inside arrays and objects. *)
Fixpoint val_ind (P : val -> Prop)
    (HU : P Undefined) (HN : P Null)
    (HB : forall b, P (Bool b)) (HZ : forall n, P (Num n))
    (HS : forall s, P (Str s))
    (HA : forall l, Forall P l -> P (Arr l))
    (HO : forall ps, Forall (fun kv => P (snd kv)) ps -> P (Obj ps))
    (v : val) {struct v} : P v :=
  match v with
  | Undefined => HU
  | Null => HN
  | Bool b => HB b
  | Num n => HZ n
  | Str s => HS s
  | Arr l =>
      HA l ((fix go (l : list val) : Forall P l :=
               match l with
               | [] => List.Forall_nil P
               | x :: r =>
                   List.Forall_cons P x r
                     (val_ind P HU HN HB HZ HS HA HO x) (go r)
               end) l)
  | Obj ps =>
      HO ps ((fix go (ps : list (string * val))
                : Forall (fun kv => P (snd kv)) ps :=
                match ps with
                | [] => List.Forall_nil _
                | kv :: r =>
                    List.Forall_cons (fun kv => P (snd kv)) kv r
                      (val_ind P HU HN HB HZ HS HA HO (snd kv)) (go r)
                end) ps)
  end.

(** Thrown values.  [RegistryItemNotFoundException] is the constructor the
    module declares; the others are the engine's or Node's. *)
Inductive exn : Type :=
  | RegistryItemNotFoundException
  | ReferenceError (identifier : string)
  | TypeError (what : string)
  | SyntaxError
  | Error (message : string)
  | SystemError (code : string).

(** Outcome of evaluating a statement list or a call. *)
Inductive Completion (A : Type) : Type :=
  | Normal (a : A)
  | Throw (e : exn).
Arguments Normal {A} a.
Arguments Throw {A} e.

#[global] Instance Completion_ret : MRet Completion := fun _ a => Normal a.
#[global] Instance Completion_bind : MBind Completion := fun _ _ f c =>
  match c with
  | Normal a => f a
  | Throw e => Throw e
  end.
#[global] Instance Completion_fmap : FMap Completion := fun _ _ f c =>
  match c with
  | Normal a => Normal (f a)
  | Throw e => Throw e
  end.

(** [try { body } catch (e) { handler }] *)
Definition try_catch {A} (body : Completion A) (handler : exn -> Completion A)
    : Completion A :=
  match body with
  | Normal a => Normal a
  | Throw e => handler e
  end.

(** *** Operators *)

(** [typeof v] *)
Definition typeof (v : val) : string :=
  match v with
  | Undefined => "undefined"
  | Null => "object"
  | Bool _ => "boolean"
  | Num _ => "number"
  | Str _ => "string"
  | Arr _ | Obj _ => "object"
  end.

(** [a === b].  Arrays and objects compare by identity; every array or
    object this module compares comes out of a separate [JSON.parse] or
    literal, so two of them are never the same object. *)
Definition strictEq (a b : val) : bool :=
  match a, b with
  | Undefined, Undefined => true
  | Null, Null => true
  | Bool x, Bool y => bool_decide (x = y)
  | Num x, Num y => bool_decide (x = y)
  | Str x, Str y => bool_decide (x = y)
  | _, _ => false
  end.

(** ToBoolean: the test of [if (v)] and of [!v]. *)
Definition truthy (v : val) : bool :=
  match v with
  | Undefined | Null => false
  | Bool b => b
  | Num n => negb (bool_decide (n = 0%Z))
  | Str s => negb (bool_decide (s = ""))
  | Arr _ | Obj _ => true
  end.

(** ToString.  An array is its elements joined by commas, [undefined] and
    [null] elements as the empty string. *)
Fixpoint toString (v : val) : string :=
  match v with
  | Undefined => "undefined"
  | Null => "null"
  | Bool true => "true"
  | Bool false => "false"
  | Num n => pretty n
  | Str s => s
  | Arr l =>
      String.concat ","
        (List.map (fun x => match x with
                            | Undefined | Null => ""
                            | _ => toString x
                            end) l)
  | Obj _ => "[object Object]"
  end.

(** *** Properties *)

Fixpoint assoc (k : string) (ps : list (string * val)) : option val :=
  match ps with
  | [] => None
  | (k', v) :: r => if bool_decide (k' = k) then Some v else assoc k r
  end.

(** [o[k] = v] on an object's property list: an existing property keeps its
    place, a new one goes last. *)
Fixpoint assign (k : string) (v : val) (ps : list (string * val))
    : list (string * val) :=
  match ps with
  | [] => [(k, v)]
  | (k', v') :: r =>
      if bool_decide (k' = k) then (k, v) :: r else (k', v') :: assign k v r
  end.

(** [v.k] for a property name [k] that is not an index.  Reading a property
    of [undefined] or [null] throws. *)
Definition get (v : val) (k : string) : Completion val :=
  match v with
  | Undefined | Null => Throw (TypeError k)
  | Obj ps => Normal (default Undefined (assoc k ps))
  | Arr l =>
      Normal (if bool_decide (k = "length") then Num (Z.of_nat (length l))
              else Undefined)
  | Str s =>
      Normal (if bool_decide (k = "length")
              then Num (Z.of_nat (String.length s)) else Undefined)
  | Bool _ | Num _ => Normal Undefined
  end.

(** [arr.push(x)]: only arrays have the method. *)
Definition push (arr x : val) : Completion val :=
  match arr with
  | Arr l => Normal (Arr (l ++ [x]))
  | Undefined | Null => Throw (TypeError "push")
  | _ => Throw (TypeError "push is not a function")
  end.

(** [...v] in an argument list: arrays and strings are iterable. *)
Definition spread (v : val) : Completion (list val) :=
  match v with
  | Arr l => Normal l
  | Str s => Normal ((fun c => Str (String c "")) <$> String.list_ascii_of_string s)
  | _ => Throw (TypeError "not iterable")
  end.

(** Own enumerable properties, as [Object.assign] reads them from a source. *)
Definition ownProps (v : val) : list (string * val) :=
  match v with
  | Obj ps => ps
  | Arr l => imap (fun i x => (pretty i, x)) l
  | Str s =>
      imap (fun i c => (pretty i, Str (String c ""))) (String.list_ascii_of_string s)
  | _ => []
  end.

(** ** JSON *)

(** What a JSON rendering keeps of a value: a property whose value is
    [undefined] is left out, an [undefined] array element is written
    [null]. *)
Fixpoint jsonValue (v : val) : val :=
  match v with
  | Arr l =>
      Arr (List.map (fun x => match x with
                              | Undefined => Null
                              | _ => jsonValue x
                              end) l)
  | Obj ps =>
      Obj ((fix props (ps : list (string * val)) : list (string * val) :=
              match ps with
              | [] => []
              | (k, x) :: r =>
                  match x with
                  | Undefined => props r
                  | _ => (k, jsonValue x) :: props r
                  end
              end) ps)
  | _ => v
  end.

(** The two local functions of [jsonValue] under their own names. *)
Definition jsonElement (x : val) : val :=
  match x with
  | Undefined => Null
  | _ => jsonValue x
  end.

Fixpoint jsonProps (ps : list (string * val)) : list (string * val) :=
  match ps with
  | [] => []
  | (k, x) :: r =>
      match x with
      | Undefined => jsonProps r
      | _ => (k, jsonValue x) :: jsonProps r
      end
  end.

(** Values free of [undefined], the ones a JSON text can denote. *)
Fixpoint isJSON (v : val) : bool :=
  match v with
  | Undefined => false
  | Arr l => forallb isJSON l
  | Obj ps => forallb (fun kv => isJSON (snd kv)) ps
  | _ => true
  end.

(** The content of a file or of a string handed to [JSON.parse].  The
    characters of a rendering play no part in the module, so a text is
    identified by what it spells: the rendering of a value, a proper prefix
    of such a rendering (what an interrupted write leaves behind; of the
    rendering of a document, an object, no proper prefix parses), or
    anything else. *)
Inductive text : Type :=
  | JsonText (v : val)
  | Prefix (written : nat) (v : val)
  | PlainText (raw : string).

(** [JSON.stringify(v)] and [JSON.stringify(v, null, '  ')]: the built-in
    returns [undefined], not a string, for [undefined]. *)
Definition JSON_stringify (v : val) : option text :=
  match v with
  | Undefined => None
  | _ => Some (JsonText (jsonValue v))
  end.

(** [JSON.parse(t)] *)
Definition JSON_parse (t : text) : Completion val :=
  match t with
  | JsonText Undefined => Throw SyntaxError
  | JsonText v => Normal (jsonValue v)
  | Prefix _ _ | PlainText _ => Throw SyntaxError
  end.

(** [JSON.parse(JSON.stringify(v))], the copy idiom of the module.  When
    [stringify] returns [undefined], [parse] reads the characters
    "undefined" and throws. *)
Definition JSON_parse_stringify (v : val) : Completion val :=
  match JSON_stringify v with
  | Some t => JSON_parse t
  | None => JSON_parse (PlainText "undefined")
  end.

(** ** The collaborators: file system, path, registry, host application *)

(** A path is the list of its components, root first: appending
    ['/config.json'] adds a component, [path.dirname] removes the last. *)
Abbreviation path := (list string).

Definition path_dirname (p : path) : path := removelast p.

(** What the operating system does with the next call that can fail for a
    reason outside the tree of files: let it run, refuse it (permissions,
    I/O error), or break a write off after it has created or emptied the
    file and put [written] characters there (disk full, device gone). *)
Inductive outcome : Type :=
  | Proceed
  | Fails (code : string)
  | FailsMidway (written : nat).

(** The file system: the directories, the regular files with their content,
    and the outcomes still to come, one per call, [Proceed] when the list is
    used up.  The root directory [[]] always exists. *)
Record FS : Type := {
  dirs : gset path;
  files : gmap path text;
  script : list outcome
}.

Definition next_outcome (d : FS) : outcome * FS :=
  match script d with
  | [] => (Proceed, d)
  | o :: rest => (o, {| dirs := dirs d; files := files d; script := rest |})
  end.

Definition is_dir (d : FS) (p : path) : bool :=
  bool_decide (p = []) || bool_decide (p ∈ dirs d).

Definition is_file (d : FS) (p : path) : bool :=
  bool_decide (is_Some (files d !! p)).

(** Some component on the way to [p] is a regular file, not a directory:
    the path cannot be resolved, which the system reports as ENOTDIR where a
    missing component is reported as ENOENT. *)
Definition below_file (d : FS) (p : path) : bool :=
  existsb (fun n => is_file d (take n p)) (seq 1 (length p - 1)).

(** The code of a call that cannot reach the directory of [p]. *)
Definition unresolved (d : FS) (p : path) : string :=
  if below_file d p then "ENOTDIR" else "ENOENT".

(** [fs.existsSync(p)]: never throws. *)
Definition fs_existsSync (d : FS) (p : path) : bool :=
  is_dir d p || is_file d p.

(** [fs.mkdirSync(p)]: one level, the parent has to be there. *)
Definition fs_mkdirSync (d : FS) (p : path) : Completion unit * FS :=
  let '(o, d) := next_outcome d in
  match o with
  | Fails code => (Throw (SystemError code), d)
  | FailsMidway _ => (Throw (SystemError "EIO"), d)
  | Proceed =>
      if fs_existsSync d p then (Throw (SystemError "EEXIST"), d)
      else if negb (is_dir d (path_dirname p))
      then (Throw (SystemError (unresolved d p)), d)
      else (Normal (),
            {| dirs := {[p]} ∪ dirs d; files := files d; script := script d |})
  end.

(** [fs.readFileSync(p, 'utf8')] *)
Definition fs_readFileSync (d : FS) (p : path) : Completion text * FS :=
  let '(o, d) := next_outcome d in
  match o with
  | Fails code => (Throw (SystemError code), d)
  | FailsMidway _ => (Throw (SystemError "EIO"), d)
  | Proceed =>
      match files d !! p with
      | Some t => (Normal t, d)
      | None =>
          (Throw (SystemError (if is_dir d p then "EISDIR" else unresolved d p)),
           d)
      end
  end.

(** The first [n] characters of a text. *)
Definition cut (n : nat) (t : text) : text :=
  match t with
  | JsonText v => Prefix n v
  | Prefix m v => Prefix (n `min` m) v
  | PlainText s => PlainText (String.substring 0 n s)
  end.

(** [fs.writeFileSync(p, data, 'utf8')]: opens [p] for writing, which creates
    or empties it, writes [data], closes. *)
Definition fs_writeFileSync (d : FS) (p : path) (data : text)
    : Completion unit * FS :=
  let '(o, d) := next_outcome d in
  let put t := {| dirs := dirs d; files := <[p := t]> (files d);
                  script := script d |} in
  match o with
  | Fails code => (Throw (SystemError code), d)
  | _ =>
      if is_dir d p then (Throw (SystemError "EISDIR"), d)
      else if negb (is_dir d (path_dirname p))
      then (Throw (SystemError (unresolved d p)), d)
      else match o with
           | FailsMidway n => (Throw (SystemError "ENOSPC"), put (cut n data))
           | _ => (Normal (), put data)
           end
  end.

(** The policy store, read through [winreg]. *)
Inductive hive : Type := HKCU | HKLM.

Record RegistryItem : Type := {
  item_name : string;
  item_value : val
}.

(** What [regKey.values(callback)] does for one key.  The library hands the
    entries of the key, or an error, to the callback; whether it does so
    before [values] returns is the library's business, so each possibility
    is a case: the callback is run with an error, run with the entries, not
    run by the time [values] returns, or [values] itself throws. *)
Inductive reply : Type :=
  | CallbackError
  | CallbackItems (items : list RegistryItem)
  | CallbackLater
  | ValuesThrows (e : exn).

Abbreviation Registry := (hive -> string -> reply).

(** [regKey.values(callback)].  [S] is the state of the variables the
    callback closes over; the value the callback returns goes to the
    library, not to the caller of [values]. *)
Definition values {S : Type} (r : reply)
    (callback : bool -> list RegistryItem -> S -> Completion (val * S))
    (s : S) : Completion S :=
  match r with
  | CallbackError => snd <$> callback true [] s
  | CallbackItems items => snd <$> callback false items s
  | CallbackLater => Normal s
  | ValuesThrows e => Throw e
  end.

(** A write handed to [fs.writeFile], to be carried out after the caller
    has returned. *)
Record PendingWrite : Type := {
  pending_path : option path;
  pending_data : text
}.

(** Everything the module reads or changes outside its arguments. *)
Record World : Type := {
  fs : FS;
  registry : Registry;
  platform : string;                    (* process.platform *)
  userData : path;                      (* app.getPath('userData') *)
  configFile : option path;             (* the module variable; None: undefined *)
  hardwareAccelerationDisabled : bool;  (* app.disableHardwareAcceleration() ran *)
  console : list exn;                   (* what console.log was given *)
  scheduled : list PendingWrite         (* writes queued by fs.writeFile *)
}.

Definition with_fs (d : FS) (w : World) : World :=
  {| fs := d; registry := registry w; platform := platform w;
     userData := userData w; configFile := configFile w;
     hardwareAccelerationDisabled := hardwareAccelerationDisabled w;
     console := console w; scheduled := scheduled w |}.

(** Statements that touch the world: a state-and-exception monad. *)
Definition JS (A : Type) : Type := World -> Completion A * World.

#[global] Instance JS_ret : MRet JS := fun _ a w => (Normal a, w).
#[global] Instance JS_bind : MBind JS := fun _ _ f m w =>
  match m w with
  | (Normal a, w') => f a w'
  | (Throw e, w') => (Throw e, w')
  end.

Definition throw {A} (e : exn) : JS A := fun w => (Throw e, w).

Definition lift {A} (c : Completion A) : JS A := fun w => (c, w).

Definition try_ {A} (body : JS A) (handler : exn -> JS A) : JS A := fun w =>
  match body w with
  | (Normal a, w') => (Normal a, w')
  | (Throw e, w') => handler e w'
  end.

Definition on_fs {A} (op : FS -> Completion A * FS) : JS A := fun w =>
  let '(c, d) := op (fs w) in (c, with_fs d w).

(** A path argument that is [undefined] is refused by [fs] and [path]. *)
Definition path_arg (p : option path) : JS path :=
  match p with
  | Some p => mret p
  | None => throw (TypeError "path")
  end.

Definition console_log (e : exn) : JS unit := fun w =>
  (Normal (),
   {| fs := fs w; registry := registry w; platform := platform w;
      userData := userData w; configFile := configFile w;
      hardwareAccelerationDisabled := hardwareAccelerationDisabled w;
      console := console w ++ [e]; scheduled := scheduled w |}).

Definition app_disableHardwareAcceleration : JS unit := fun w =>
  (Normal (),
   {| fs := fs w; registry := registry w; platform := platform w;
      userData := userData w; configFile := configFile w;
      hardwareAccelerationDisabled := true;
      console := console w; scheduled := scheduled w |}).

Definition set_configFile (p : path) : JS unit := fun w =>
  (Normal (),
   {| fs := fs w; registry := registry w; platform := platform w;
      userData := userData w; configFile := Some p;
      hardwareAccelerationDisabled := hardwareAccelerationDisabled w;
      console := console w; scheduled := scheduled w |}).

Definition fs_writeFile (p : option path) (data : text) : JS unit := fun w =>
  (Normal (),
   {| fs := fs w; registry := registry w; platform := platform w;
      userData := userData w; configFile := configFile w;
      hardwareAccelerationDisabled := hardwareAccelerationDisabled w;
      console := console w;
      scheduled := scheduled w ++ [{| pending_path := p; pending_data := data |}] |}).

(** [./config/buildConfig]: the two fields read here. *)
Record BuildConfig : Type := {
  defaultTeams : list val;
  enableServerManagement : bool
}.

(** The text [fs] is given for [data]: a string as it is, [undefined] as its
    characters. *)
Definition data_text (data : option text) : text :=
  default (PlainText "undefined") data.

(** ** The functions both source files share, word for word *)

Section Shared.

(** The build configuration, the compiled-in default preferences (an object
    literal) and the upgrade function of [./config/upgradePreferences] are
    fixed per build. *)
Variable buildConfig : BuildConfig.
Variable defaultPreferences : list (string * val).
Variable upgradePreferences : val -> Completion val.

(** [defaultPreferences.version] *)
Definition currentVersion : val := default Undefined (assoc "version" defaultPreferences).

Definition merge (base target : val) : val :=
  Obj (foldl (fun acc kv => assign (fst kv) (snd kv) acc) []
             (ownProps base ++ ownProps target)).

Definition loadDefault : Completion val :=
  JSON_parse_stringify (Obj defaultPreferences).

Definition hasBuildConfigDefaultTeams (config : BuildConfig) : bool :=
  bool_decide (0 < length (defaultTeams config)).

Definition upgrade (config : val) : Completion val :=
  upgradePreferences config.

Definition readFileSync (configFile : option path) : JS val :=
  p ← path_arg configFile;
  t ← on_fs (fun d => fs_readFileSync d p);
  config ← lift (JSON_parse t);
  version ← lift (get config "version");
  if strictEq version currentVersion then
    defaultConfig ← lift loadDefault;
    mret (merge defaultConfig config)
  else mret config.

(** The message of the version guard. *)
Definition version_message (version : val) : string :=
  "version " +:+ toString version +:+ " is not equal to "
    +:+ toString currentVersion.

Definition writeFile (configFile : option path) (config : val) : JS unit :=
  version ← lift (get config "version");
  if negb (strictEq version currentVersion) then
    throw (Error (version_message version))
  else
    let data := JSON_stringify config in
    fs_writeFile configFile (data_text data).

Definition writeFileSync (configFile : option path) (config : val) : JS unit :=
  version ← lift (get config "version");
  if negb (strictEq version currentVersion) then
    throw (Error (version_message version))
  else
    p ← path_arg configFile;
    let dir := path_dirname p in
    exists_ ← on_fs (fun d => (Normal (fs_existsSync d dir), d));
    _ ← (if negb exists_ then on_fs (fun d => fs_mkdirSync d dir) else mret ());
    let data := JSON_stringify config in
    on_fs (fun d => fs_writeFileSync d p (data_text data)).

(** [mergeDefaultTeams(servers)].  [newServers] is threaded through the two
    conditional [push(...)] statements. *)
Definition mergeDefaultTeams (servers : list val) : Completion (list val) :=
  let newServers : list val := [] in
  newServers ←
    (if hasBuildConfigDefaultTeams buildConfig then
       copy ← JSON_parse_stringify (Arr (defaultTeams buildConfig));
       items ← spread copy;
       mret (newServers ++ items)
     else mret newServers);
  newServers ←
    (if enableServerManagement buildConfig then
       copy ← JSON_parse_stringify (Arr servers);
       items ← spread copy;
       mret (newServers ++ items)
     else mret newServers);
  mret newServers.

(** [config.k = v] on the document. *)
Definition set (config : val) (k : string) (v : val) : val :=
  match config with
  | Obj ps => Obj (assign k v ps)
  | _ => config
  end.

(** The [try] block of [init], the same text in both files. *)
Definition load_or_upgrade (configFile : option path) : JS val :=
  config ← readFileSync configFile;
  version ← lift (get config "version");
  if negb (strictEq version currentVersion) then
    config ← lift (upgrade config);
    writeFileSync configFile config;;
    mret config
  else mret config.

(** The [catch] block of [init], the same text in both files. *)
Definition load_defaults (configFile : option path) (e : exn) : JS val :=
  console_log e;;
  config ← lift loadDefault;
  teams ← lift (get config "teams");
  len ← lift (get teams "length");
  seed ← (if negb (truthy len) then lift (get config "defaultTeam")
          else mret (Bool false));
  if truthy seed then
    defaultTeam ← lift (get config "defaultTeam");
    teams ← lift (push teams defaultTeam);
    let config := set config "teams" teams in
    writeFileSync configFile config;;
    mret config
  else mret config.

(** The [try]/[catch] statement of [init]. *)
Definition load_config (configFile : option path) : JS val :=
  try_ (load_or_upgrade configFile) (load_defaults configFile).

End Shared.

(** ** The policy store functions *)

(** [new WindowsRegistry({hive, key})] *)
Record RegKey : Type := {
  key_hive : hive;
  key_name : string
}.

Definition policies_key : string := "\Software\Policies\Mattermost".
Definition server_list_key : string :=
  "\Software\Policies\Mattermost\DefaultServerList".

(** [e instanceof RegistryItemNotFoundException] *)
Definition is_RegistryItemNotFoundException (e : exn) : bool :=
  match e with
  | RegistryItemNotFoundException => true
  | _ => false
  end.

(** The loop of the callback of [getRegistryItemValue]: the value of the
    first entry called [item] is returned, to whoever called the callback;
    running off the end throws. *)
Fixpoint find_item (items : list RegistryItem) (item : string) : Completion val :=
  match items with
  | [] => Throw RegistryItemNotFoundException
  | it :: rest =>
      if bool_decide (item_name it = item) then Normal (item_value it)
      else find_item rest item
  end.

(** [getRegistryItemValue(regKey, item)]: the function body is the one call
    of [regKey.values]; it has no [return] of its own. *)
Definition getRegistryItemValue (reg : Registry) (regKey : RegKey)
    (item : string) : Completion val :=
  _ ← values (reg (key_hive regKey) (key_name regKey))
        (fun (err : bool) items (s : unit) =>
           if err then Throw RegistryItemNotFoundException
           else found ← find_item items item; mret (found, s))
        ();
  mret Undefined.

(** [name.split("|")]: never empty. *)
Fixpoint split (sep : ascii) (s : string) : list string :=
  match s with
  | EmptyString => [""]
  | String c rest =>
      if bool_decide (c = sep) then "" :: split sep rest
      else match split sep rest with
           | t :: ts => String c t :: ts
           | [] => [String c ""]
           end
  end.

(** The [server] of [getDefaultServerListFromGPO]: created as [[]] and given
    three named properties. *)
Record Server : Type := {
  server_name : val;
  server_index : val;
  server_url : val
}.

(** [for (var i = from; i < nameTokenized.length; i++) server.name +=
    nameTokenized[i];] gives the name and the value [i] is left with. *)
Definition append_tokens (nameTokenized : list string) (from : nat) (name : val)
    : val * nat :=
  (foldl (fun acc tok => Str (toString acc +:+ tok)) name (drop from nameTokenized),
   from `max` length nameTokenized).

(** The loop over [registryItems].  All three [for] statements declare
    [var i], which is one variable of the function: the inner loop leaves
    the token count in it, the [url] is read at that index and the outer
    loop goes on from there.  [fuel] bounds the number of rounds; [None]
    means it ran out. *)
Fixpoint server_loop (fuel : nat) (registryItems : list RegistryItem)
    (i : nat) (servers : list Server) : option (Completion (list Server)) :=
  match fuel with
  | O => None
  | S fuel =>
      match registryItems !! i with
      | None => Some (Normal servers)
      | Some item =>
          let nameTokenized := split "|"%char (item_name item) in
          let first := default Undefined (Str <$> nameTokenized !! 0%nat) in
          let '(name, index, i) :=
            if negb (bool_decide (typeof first = "number")) then
              let '(name, i) := append_tokens nameTokenized 0 Undefined in
              (name, Bool false, i)
            else
              let '(name, i) := append_tokens nameTokenized 1 Undefined in
              (name, first, i) in
          match registryItems !! i with
          | None => Some (Throw (TypeError "value"))
          | Some at_i =>
              let server := {| server_name := name; server_index := index;
                               server_url := item_value at_i |} in
              server_loop fuel registryItems (S i) (servers ++ [server])
          end
      end
  end.

(** The callback of [getDefaultServerListFromGPO]: stores the entries in
    [registryItems]. *)
Definition store_items (err : bool) (items registryItems : list RegistryItem)
    : Completion (val * list RegistryItem) :=
  if err then Throw RegistryItemNotFoundException
  else Normal (Undefined, items).

(** ** [src/common/settings.js] *)

Module Settings.
Section Build.

Variable defaultPreferences : list (string * val).
Variable upgradePreferences : val -> Completion val.

(** Both [try] blocks rethrow what is not a
    [RegistryItemNotFoundException].  [Some b] stands for [return b] inside
    a block, [None] for running off its end. *)
Definition isAddingNewServerPreventedByGPO (reg : Registry) : Completion bool :=
  let lookup (h : hive) : Completion (option bool) :=
    try_catch
      (let regKey := {| key_hive := h; key_name := policies_key |} in
       regItemValue ← getRegistryItemValue reg regKey "PreventAddNewServer";
       if strictEq regItemValue (Num 1) then mret (Some true) else mret None)
      (fun e =>
         if negb (is_RegistryItemNotFoundException e) then Throw e
         else mret None) in
  r ← lookup HKCU;
  match r with
  | Some b => mret b
  | None =>
      r ← lookup HKLM;
      match r with
      | Some b => mret b
      | None => mret false
      end
  end.

(** The [catch] clause names its parameter [RegistryItemNotFoundException],
    so it catches everything; its first statement reads [Registry], which
    this file does not declare (the import is called [WindowsRegistry]). *)
Definition getDefaultServerListFromGPO (fuel : nat) (reg : Registry)
    : option (Completion (list Server)) :=
  let servers : list Server := [] in
  let registryItems : list RegistryItem := [] in
  let read :=
    try_catch
      (let regKey := {| key_hive := HKCU; key_name := server_list_key |} in
       values (reg (key_hive regKey) (key_name regKey)) store_items registryItems)
      (fun _ => Throw (ReferenceError "Registry")) in
  match read with
  | Throw e => Some (Throw e)
  | Normal registryItems => server_loop fuel registryItems 0 servers
  end.

Definition read : JS val := fun w =>
  readFileSync defaultPreferences (configFile w) w.

Definition save (config : val) : JS unit := fun w =>
  writeFileSync defaultPreferences (configFile w) config w.

(** [init(app)].  The body of the [win32] branch is commented out in the
    source: the branch is empty. *)
Definition init : JS val :=
  dir ← (fun w => (Normal (userData w), w));
  set_configFile (dir ++ ["config.json"]);;
  configFile ← (fun w => (Normal (configFile w), w));
  config ← load_config defaultPreferences upgradePreferences configFile;
  os ← (fun w => (Normal (platform w), w));
  (if bool_decide (os = "win32") then mret () else mret ());;
  acceleration ← lift (get config "enableHardwareAcceleration");
  (if strictEq acceleration (Bool false) then app_disableHardwareAcceleration
   else mret ());;
  mret config.

End Build.
End Settings.

(** ** The unnamed source file: the earlier draft of the module *)

Module Part000.
Section Build.

Variable defaultPreferences : list (string * val).
Variable upgradePreferences : val -> Completion val.

(** [new Registry({hive, key})], [Registry.HKCU]: the file imports the
    library as [winreg] and declares no [Registry]. *)
Definition new_Registry (h : hive) (k : string) : Completion RegKey :=
  Throw (ReferenceError "Registry").

(** The [catch] clause catches everything and runs the same lookup on the
    machine hive. *)
Definition isAddingNewServerPreventedByGPO (reg : Registry) : Completion bool :=
  let lookup (h : hive) : Completion (option bool) :=
    regKey ← new_Registry h policies_key;
    regItemValue ← getRegistryItemValue reg regKey "PreventAddNewServer";
    if strictEq regItemValue (Num 1) then mret (Some true) else mret None in
  r ← try_catch (lookup HKCU) (fun _ => lookup HKLM);
  match r with
  | Some b => mret b
  | None => mret false
  end.

(** The loop reads [items.length]; [items] is the parameter of the two
    callbacks and not a variable of the function. *)
Definition getDefaultServerListFromGPO (reg : Registry)
    : Completion (list Server) :=
  let servers : list Server := [] in
  let registryItems : list RegistryItem := [] in
  let lookup (h : hive) : Completion (list RegistryItem) :=
    regKey ← new_Registry h server_list_key;
    values (reg (key_hive regKey) (key_name regKey)) store_items registryItems in
  registryItems ← try_catch (lookup HKCU) (fun _ => lookup HKLM);
  Throw (ReferenceError "items").

(** A [server] as a value: its three named properties. *)
Definition server_val (s : Server) : val :=
  Obj [("name", server_name s); ("index", server_index s);
       ("url", server_url s)].

(** [init(config, app)] up to its last statement, with the [config] it
    ends with.  The [win32] branch calls [isAddingNewServerPrevented], a
    name the file does not declare. *)
Definition init_body (config : val) : JS val :=
  dir ← (fun w => (Normal (userData w), w));
  let configFile := Some (dir ++ ["config.json"]) in
  config ← load_config defaultPreferences upgradePreferences configFile;
  os ← (fun w => (Normal (platform w), w));
  config ←
    (if bool_decide (os = "win32") then
       prevented ← throw (A := val) (ReferenceError "isAddingNewServerPrevented");
       reg ← (fun w => (Normal (registry w), w));
       if truthy prevented then
         servers ← lift (getDefaultServerListFromGPO reg);
         mret (set config "teams" (Arr (server_val <$> servers)))
       else
         teams ← lift (get config "teams");
         servers ← lift (getDefaultServerListFromGPO reg);
         teams ← lift (push teams (Arr (server_val <$> servers)));
         mret (set config "teams" teams)
     else mret config);
  acceleration ← lift (get config "enableHardwareAcceleration");
  (if strictEq acceleration (Bool false) then app_disableHardwareAcceleration
   else mret ());;
  mret config.

(** [init(config, app)]: no [return], the caller gets [undefined]. *)
Definition init (config : val) : JS val :=
  init_body config;;
  mret Undefined.

End Build.
End Part000.

(** ** Modelled parts of the specification *)

(** Modelled from the spec: the Upgrade Chain, [./config/upgradePreferences],
    which is not among the sources.  Section 4.2: it "maps a document at any
    past schema version to the current version by composing
    version-to-version migrations in ascending order", is the "identity
    transform" on "a document already at the current version", and treats
    "unknown/future schema versions" as "a hard error".  [migrations] holds
    the migration from version [n] to [n + 1] at index [n]. *)
Definition upgradeChain (migrations : list (val -> Completion val))
    (current : val) (doc : val) : Completion val :=
  version ← get doc "version";
  if strictEq version current then Normal doc
  else
    match version, current with
    | Num from, Num to =>
        if bool_decide (0 ≤ from < to)%Z then
          foldl (fun acc migration => acc ≫= migration) (Normal doc)
                (take (Z.to_nat (to - from)) (drop (Z.to_nat from) migrations))
        else Throw (Error "schema version newer than current")
    | _, _ => Throw (Error "unknown schema version")
    end.

(** ** Vocabulary of the claims *)

(** The [url] of a team. *)
Definition url_of (team : val) : val :=
  match get team "url" with
  | Normal u => u
  | Throw _ => Undefined
  end.

Definition has_url (u : string) (team : val) : bool :=
  strictEq (url_of team) (Str u).

(** How many entries of a list carry the url [u]. *)
Definition count_url (u : string) (teams : list val) : nat :=
  length (List.filter (has_url u) teams).

(** A list of JSON data: every entry is free of [undefined]. *)
Definition json_list (l : list val) : Prop := forallb isJSON l = true.

(** ** Object identity: [mergeDefaultTeams] on a store *)

(** Arrays and objects live in a store and are referred to by location, so
    that two references to one object, and a change made through either, can
    be told from two equal copies.  Allocation appends a cell; a location is
    the index of its cell. *)
Module Store.

Abbreviation loc := nat.

(** What a variable, an array slot or a property holds. *)
Inductive word : Type :=
  | WUndefined
  | WNull
  | WBool (b : bool)
  | WNum (n : Z)
  | WStr (s : string)
  | WRef (l : loc).

Inductive cell : Type :=
  | CArr (elems : list word)
  | CObj (props : list (string * word)).

Abbreviation store := (list cell).

Definition cell_words (c : cell) : list word :=
  match c with
  | CArr ws => ws
  | CObj ps => snd <$> ps
  end.

(** The value a word denotes: the tree found by following references, to
    depth [fuel].  [None]: a reference that leads nowhere, or deeper than
    [fuel]. *)
Fixpoint read (fuel : nat) (σ : store) (w : word) : option val :=
  match w with
  | WUndefined => Some Undefined
  | WNull => Some Null
  | WBool b => Some (Bool b)
  | WNum n => Some (Num n)
  | WStr s => Some (Str s)
  | WRef l =>
      match fuel with
      | O => None
      | S fuel =>
          match σ !! l with
          | None => None
          | Some (CArr ws) => Arr <$> mapM (read fuel σ) ws
          | Some (CObj ps) =>
              Obj <$> mapM (fun kw => pair (fst kw) <$> read fuel σ (snd kw)) ps
          end
      end
  end.

(** Statements on the store. *)
Definition Heap (A : Type) : Type := store -> Completion A * store.

#[global] Instance Heap_ret : MRet Heap := fun _ a σ => (Normal a, σ).
#[global] Instance Heap_bind : MBind Heap := fun _ _ f m σ =>
  match m σ with
  | (Normal a, σ') => f a σ'
  | (Throw e, σ') => (Throw e, σ')
  end.

(** [JSON.stringify(w)] walks the structure and throws on a cycle.  A walk
    without a cycle passes through each cell at most once, so it is no
    deeper than the store is long. *)
Definition stringify (w : word) : Heap (option text) := fun σ =>
  match read (S (length σ)) σ w with
  | Some v => (Normal (JSON_stringify v), σ)
  | None => (Throw (TypeError "Converting circular structure to JSON"), σ)
  end.

Definition alloc_all (alloc : store -> val -> store * word)
    : store -> list val -> store * list word :=
  fix go σ l :=
    match l with
    | [] => (σ, [])
    | x :: r =>
        let '(σ, w) := alloc σ x in
        let '(σ, ws) := go σ r in
        (σ, w :: ws)
    end.

Definition alloc_props (alloc : store -> val -> store * word)
    : store -> list (string * val) -> store * list (string * word) :=
  fix go σ ps :=
    match ps with
    | [] => (σ, [])
    | (k, x) :: r =>
        let '(σ, w) := alloc σ x in
        let '(σ, ws) := go σ r in
        (σ, (k, w) :: ws)
    end.

(** Building a value: every array and object gets a new cell. *)
Fixpoint alloc (σ : store) (v : val) : store * word :=
  match v with
  | Undefined => (σ, WUndefined)
  | Null => (σ, WNull)
  | Bool b => (σ, WBool b)
  | Num n => (σ, WNum n)
  | Str s => (σ, WStr s)
  | Arr l =>
      let '(σ, ws) := alloc_all alloc σ l in
      (σ ++ [CArr ws], WRef (length σ))
  | Obj ps =>
      let '(σ, ws) := alloc_props alloc σ ps in
      (σ ++ [CObj ws], WRef (length σ))
  end.

(** [JSON.parse(t)]: the value is built from new cells. *)
Definition parse (t : text) : Heap word := fun σ =>
  match JSON_parse t with
  | Normal v => let '(σ, w) := alloc σ v in (Normal w, σ)
  | Throw e => (Throw e, σ)
  end.

(** [JSON.parse(JSON.stringify(w))] *)
Definition parse_stringify (w : word) : Heap word :=
  t ← stringify w;
  parse (data_text t).

(** [...w] *)
Definition spread (w : word) : Heap (list word) := fun σ =>
  match w with
  | WRef l =>
      match σ !! l with
      | Some (CArr ws) => (Normal ws, σ)
      | _ => (Throw (TypeError "not iterable"), σ)
      end
  | WStr s =>
      (Normal ((fun c => WStr (String c "")) <$> String.list_ascii_of_string s), σ)
  | _ => (Throw (TypeError "not iterable"), σ)
  end.

(** [[]]: a new empty array. *)
Definition new_array : Heap loc := fun σ => (Normal (length σ), σ ++ [CArr []]).

(** [target.push(...items)]: the array at [target] is changed in place. *)
Definition push_all (target : loc) (items : list word) : Heap unit := fun σ =>
  match σ !! target with
  | Some (CArr ws) => (Normal (), <[target := CArr (ws ++ items)]> σ)
  | _ => (Throw (TypeError "push"), σ)
  end.

(** [w.length > 0] *)
Definition nonempty (w : word) : Heap bool := fun σ =>
  match w with
  | WRef l =>
      match σ !! l with
      | Some (CArr ws) => (Normal (bool_decide (0 < length ws)), σ)
      | _ => (Normal false, σ)
      end
  | WStr s => (Normal (bool_decide (0 < String.length s)), σ)
  | WUndefined | WNull => (Throw (TypeError "length"), σ)
  | _ => (Normal false, σ)
  end.

(** [mergeDefaultTeams(servers)] with [buildConfig.defaultTeams] and
    [servers] given by reference. *)
Definition mergeDefaultTeams (defaultTeams : word) (enableServerManagement : bool)
    (servers : word) : Heap word :=
  newServers ← new_array;
  has ← nonempty defaultTeams;
  (if has : bool then
     copy ← parse_stringify defaultTeams;
     items ← spread copy;
     push_all newServers items
   else mret () : Heap unit);;
  (if enableServerManagement then
     copy ← parse_stringify servers;
     items ← spread copy;
     push_all newServers items
   else mret () : Heap unit);;
  mret (WRef newServers).

(** [l] can be reached from [w]. *)
Inductive reach (σ : store) : word -> loc -> Prop :=
  | reach_here l : reach σ (WRef l) l
  | reach_step l c w l' :
      σ !! l = Some c -> w ∈ cell_words c -> reach σ w l' ->
      reach σ (WRef l) l'.

End Store.

(** ** Vocabulary of the theorems *)

(** Values that have properties: everything but [undefined] and [null]. *)
Definition has_properties (v : val) : Prop :=
  match v with
  | Undefined | Null => False
  | _ => True
  end.

(** The path [init] computes, and the world in which it runs its [try]
    statement: the module variable holds that path. *)
Definition config_json (w : World) : path := userData w ++ ["config.json"].
Definition configured (w : World) : World := (set_configFile (config_json w) w).2.

(** The default document with its [defaultTeam] as the only team. *)
Definition seeded (defaultPreferences : list (string * val)) (defaultTeam : val)
    : val :=
  Obj (assign "teams" (Arr [jsonValue defaultTeam]) (jsonProps defaultPreferences)).

(** The same world with another policy store and platform. *)
Definition with_policy (reg : Registry) (os : string) (w : World) : World :=
  {| fs := fs w; registry := reg; platform := os;
     userData := userData w; configFile := configFile w;
     hardwareAccelerationDisabled := hardwareAccelerationDisabled w;
     console := console w; scheduled := scheduled w |}.

(** A statement that neither reads nor writes the policy store and the
    platform name. *)
Definition policy_blind {A} (m : JS A) : Prop :=
  forall reg os w,
    m (with_policy reg os w) = ((m w).1, with_policy reg os (m w).2).

(** Every cell of [σ] is found unchanged in [σ']. *)
Definition preserves (σ σ' : Store.store) : Prop :=
  forall l c, σ !! l = Some c -> σ' !! l = Some c.

(** A word that does not refer below [n]. *)
Definition fresh_word (n : nat) (w : Store.word) : Prop :=
  match w with
  | Store.WRef l => n <= l
  | _ => True
  end.

Definition fresh_cell (n : nat) (c : Store.cell) : Prop :=
  Forall (fresh_word n) (Store.cell_words c).

(** The cells from [n] on refer to cells from [n] on only. *)
Definition fresh_from (n : nat) (σ : Store.store) : Prop :=
  forall l c, n <= l -> σ !! l = Some c -> fresh_cell n c.

(** What holds of the store while [mergeDefaultTeams] runs from [σ0]: the
    cells of [σ0] are as they were, and the cells added since refer to added
    cells only. *)
Definition grown_from (σ0 σ : Store.store) : Prop :=
  preserves σ0 σ /\ fresh_from (length σ0) σ.

(** [m] keeps [grown_from σ0] and its result satisfies [Q]. *)
Definition keeps {A} (σ0 : Store.store) (m : Store.Heap A) (Q : A -> Prop) : Prop :=
  forall σ r σ', grown_from σ0 σ -> m σ = (r, σ') ->
    grown_from σ0 σ' /\ forall a, r = Normal a -> Q a.

(** [σ'] has the cells of [σ] from [n] on. *)
Definition agree_from (n : nat) (σ σ' : Store.store) : Prop :=
  forall l c, n <= l -> σ !! l = Some c -> σ' !! l = Some c.

(** The words [ws] denote the values [vs] in every store that has the cells
    of [σ] from [n] on, given enough fuel. *)
Definition denote_from (n : nat) (σ : Store.store) (ws : list Store.word)
    (vs : list val) : Prop :=
  exists fuel, forall f σ', fuel <= f -> agree_from n σ σ' ->
    mapM (Store.read f σ') ws = Some vs.

(** A value that, once built, is read back from its word. *)
Definition readable (v : val) : Prop :=
  forall σ σ' w, Store.alloc σ v = (σ', w) ->
    exists fuel, forall f σ'', fuel <= f -> agree_from (length σ) σ' σ'' ->
      Store.read f σ'' w = Some v.

(** ** Concrete inputs *)

Module Examples.

(** The merge example of the specification: one vendor default and one user
    team with the same url. *)
Definition vendor_a : BuildConfig :=
  {| defaultTeams := [Obj [("url", Str "a")]]; enableServerManagement := true |}.
Definition vendor_a_locked : BuildConfig :=
  {| defaultTeams := [Obj [("url", Str "a")]]; enableServerManagement := false |}.
Definition user_a : list val := [Obj [("url", Str "a"); ("name", Str "mine")]].

(** Default preferences at schema version 1, without and with a
    [defaultTeam], given as a team or as a bare url. *)
Definition prefs_v1 : list (string * val) :=
  [("version", Num 1); ("teams", Arr [])].
Definition seed_team : val :=
  Obj [("name", Str "Seed"); ("url", Str "https://seed")].
Definition prefs_seed_team : list (string * val) :=
  [("version", Num 1); ("teams", Arr []); ("defaultTeam", seed_team)].
Definition prefs_seed_url : list (string * val) :=
  [("version", Num 1); ("teams", Arr []); ("defaultTeam", Str "https://seed")].

(** Documents. *)
Definition mine : val := Obj [("name", Str "mine"); ("url", Str "https://u")].
Definition old_doc : val := Obj [("version", Num 1); ("teams", Arr [mine])].
Definition new_doc : val := Obj [("version", Num 1); ("teams", Arr [])].
Definition stale_doc : val := Obj [("version", Num 0); ("teams", Arr [])].
Definition merged_old_doc : val := merge (Obj prefs_v1) old_doc.

(** Upgrade functions: one that returns its argument, one that would
    destroy the document. *)
Definition keep : val -> Completion val := fun config => Normal config.
Definition wreck : val -> Completion val := fun _ => Normal Undefined.

(** Policy stores. *)
Definition no_policy : Registry := fun _ _ => CallbackLater.

Definition prevent_policy : Registry := fun h k =>
  if bool_decide (k = policies_key)
  then CallbackItems [{| item_name := "PreventAddNewServer"; item_value := Num 1 |}]
  else CallbackLater.

(** The ordering example of the specification. *)
Definition ordered_policy : Registry := fun h k =>
  if bool_decide (k = server_list_key) then
    CallbackItems [{| item_name := "2|Beta"; item_value := Str "https://b" |};
                   {| item_name := "1|Alpha"; item_value := Str "https://a" |}]
  else CallbackLater.

Definition two_servers : Registry := fun h k =>
  if bool_decide (k = server_list_key) then
    CallbackItems [{| item_name := "Alpha"; item_value := Str "https://a" |};
                   {| item_name := "Beta"; item_value := Str "https://b" |}]
  else CallbackLater.

Definition three_plain_items : list RegistryItem :=
  [{| item_name := "A"; item_value := Str "https://a" |};
   {| item_name := "B"; item_value := Str "https://b" |};
   {| item_name := "C"; item_value := Str "https://c" |}].

Definition plain_policy : Registry := fun h k => CallbackItems three_plain_items.

(** Worlds. *)
Definition data_dir : path := ["home"; "Mattermost"].
Definition config_path : path := ["home"; "Mattermost"; "config.json"].

Definition world (d : FS) (reg : Registry) (os : string) (cf : option path)
    : World :=
  {| fs := d; registry := reg; platform := os; userData := data_dir;
     configFile := cf; hardwareAccelerationDisabled := false;
     console := []; scheduled := [] |}.

Definition disk_with_config (t : text) (s : list outcome) : FS :=
  {| dirs := {[ ["home"]; data_dir ]}; files := {[ config_path := t ]};
     script := s |}.

(** The data directory is not there yet and there is no file. *)
Definition first_run : World :=
  world {| dirs := {[ ["home"] ]}; files := ∅; script := [] |}
        no_policy "linux" None.

(** A current document on disk. *)
Definition current_world : World :=
  world (disk_with_config (JsonText old_doc) []) no_policy "linux"
        (Some config_path).

(** The same, and the next write breaks off after seven characters. *)
Definition disk_full_world : World :=
  world (disk_with_config (JsonText old_doc) [FailsMidway 7]) no_policy "linux"
        (Some config_path).

(** The replacement example of the specification: a document whose one team
    has url "a" on disk, on the policy-bearing platform, with the policy
    store [reg]. *)
Definition team_a : val := Obj [("url", Str "a")].
Definition doc_a : val := Obj [("version", Num 1); ("teams", Arr [team_a])].
Definition policy_world (reg : Registry) : World :=
  world (disk_with_config (JsonText doc_a) []) reg "win32" None.

(** A store holding the vendor list at location 1 and the user's list at
    location 3, each with one team. *)
Definition team_store : Store.store :=
  [Store.CObj [("url", Store.WStr "a")];
   Store.CArr [Store.WRef 0];
   Store.CObj [("url", Store.WStr "a"); ("name", Store.WStr "mine")];
   Store.CArr [Store.WRef 2]].

End Examples.


(** ** Vocabulary of the further properties *)

(** The property names of an object, in order. *)
Definition keys (ps : list (string * val)) : list string := fst <$> ps.

(** The last property called [k] in a list of assignments. *)
Fixpoint lookup_last (k : string) (ps : list (string * val)) : option val :=
  match ps with
  | [] => None
  | (k', v) :: r =>
      match lookup_last k r with
      | Some x => Some x
      | None => if bool_decide (k' = k) then Some v else None
      end
  end.

(** The document [loadDefault] returns. *)
Definition default_document (defaultPreferences : list (string * val)) : val :=
  Obj (jsonProps defaultPreferences).

(** The world [w] with the disk [d] and [logs] more lines on the console. *)
Definition with_disk (d : FS) (logs : list exn) (w : World) : World :=
  {| fs := d; registry := registry w; platform := platform w;
     userData := userData w; configFile := configFile w;
     hardwareAccelerationDisabled := hardwareAccelerationDisabled w;
     console := console w ++ logs; scheduled := scheduled w |}.

(** A statement whose outcome depends on the disk alone and which changes
    nothing but the disk and the console, where it only adds lines. *)
Definition disk_action {A} (m : JS A) : Prop :=
  forall d0, exists c d logs,
    forall w, fs w = d0 -> m w = (c, with_disk d logs w).

(** [s] without the characters [sep]. *)
Fixpoint without (sep : ascii) (s : string) : string :=
  match s with
  | EmptyString => EmptyString
  | String c rest =>
      if bool_decide (c = sep) then without sep rest
      else String c (without sep rest)
  end.

(** What every server of [getDefaultServerListFromGPO] looks like: no index,
    the name of some entry behind "undefined" with the separators gone, and
    the value of some entry as url. *)
Definition read_off (items : list RegistryItem) (s : Server) : Prop :=
  server_index s = Bool false /\
  (exists item, item ∈ items /\
     server_name s = Str ("undefined" +:+ without "|"%char (item_name item))) /\
  (exists item, item ∈ items /\ server_url s = item_value item).

Module MoreExamples.
Import Examples.

(** An upgrade function that stamps version 1 on the document. *)
Definition to_v1 : val -> Completion val :=
  fun config => Normal (set config "version" (Num 1)).

(** A document of version 0 on disk. *)
Definition stale_world : World :=
  world (disk_with_config (JsonText stale_doc) []) no_policy "linux" None.

(** Text on disk that is not JSON. *)
Definition corrupt_world : World :=
  world (disk_with_config (PlainText "{oops") []) no_policy "linux" None.

(** Neither the data directory nor its parent is there. *)
Definition no_home : World :=
  world {| dirs := ∅; files := ∅; script := [] |} no_policy "linux"
        (Some config_path).

(** The data directory is missing, its parent is there. *)
Definition no_data_dir : World :=
  world {| dirs := {[ ["home"] ]}; files := ∅; script := [] |} no_policy "linux"
        (Some config_path).

(** The data directory is a regular file; the parent of the data directory
    is a regular file. *)
Definition data_dir_is_file : World :=
  world {| dirs := {[ ["home"] ]}; files := {[ data_dir := PlainText "" ]};
           script := [] |} no_policy "linux" None.
Definition home_is_file : World :=
  world {| dirs := ∅; files := {[ ["home"] := PlainText "" ]}; script := [] |}
        no_policy "linux" (Some config_path).

(** Default preferences with a team, and with hardware acceleration off. *)
Definition prefs_with_team : list (string * val) :=
  [("version", Num 1); ("teams", Arr [mine]); ("defaultTeam", seed_team)].
Definition prefs_no_acceleration : list (string * val) :=
  [("version", Num 1); ("teams", Arr []); ("enableHardwareAcceleration", Bool false)].

Definition one_server : Registry := fun h k =>
  if bool_decide (k = server_list_key) then
    CallbackItems [{| item_name := "1|Alpha"; item_value := Str "https://a" |}]
  else CallbackLater.

Definition broken_user_hive : Registry := fun h k =>
  match h with
  | HKCU => CallbackError
  | HKLM => CallbackItems three_plain_items
  end.

Definition failing_library : Registry := fun h k =>
  ValuesThrows (SystemError "EPERM").

End MoreExamples.

(** * Theorems *)

Import Examples.

(** ** JSON copies *)

Lemma jsonValue_Arr l : jsonValue (Arr l) = Arr (List.map jsonElement l).
Proof. reflexivity. Qed.

Lemma jsonValue_Obj ps : jsonValue (Obj ps) = Obj (jsonProps ps).
Proof. reflexivity. Qed.

Lemma isJSON_jsonValue v : isJSON v = true -> jsonValue v = v.
Proof.
  induction v as [| | | | |l IH|ps IH] using val_ind; intros Hj; try done.
  - rewrite jsonValue_Arr. f_equal. simpl in Hj.
    induction IH as [|x r Hx _ IHr]; [done|].
    simpl in Hj. apply andb_prop in Hj as [Hx' Hr].
    simpl. rewrite IHr by done. f_equal.
    destruct x; try done; unfold jsonElement; auto.
  - rewrite jsonValue_Obj. f_equal. simpl in Hj.
    induction IH as [|[k x] r Hx _ IHr]; [done|].
    simpl in Hj, Hx. apply andb_prop in Hj as [Hx' Hr].
    simpl. rewrite IHr by done.
    destruct x; try done; rewrite Hx; auto.
Qed.

Lemma isJSON_jsonElement x : isJSON x = true -> jsonElement x = x.
Proof.
  destruct x; try done; intros; unfold jsonElement; by apply isJSON_jsonValue.
Qed.

Lemma jsonElement_isJSON v : isJSON (jsonElement v) = true.
Proof.
  induction v as [| | | | |l IH|ps IH] using val_ind; try done.
  - unfold jsonElement. rewrite jsonValue_Arr. simpl.
    induction IH as [|x r Hx _ IHr]; [done|].
    simpl. by rewrite Hx, IHr.
  - unfold jsonElement. rewrite jsonValue_Obj. simpl.
    induction IH as [|[k x] r Hx _ IHr]; [done|].
    simpl in *. destruct x; simpl in *; try done; by rewrite ?Hx, IHr.
Qed.

Lemma jsonElement_idem v : jsonElement (jsonElement v) = jsonElement v.
Proof. apply isJSON_jsonElement, jsonElement_isJSON. Qed.

Lemma jsonValue_isJSON v : v <> Undefined -> isJSON (jsonValue v) = true.
Proof.
  intros Hv. replace (jsonValue v) with (jsonElement v) by (by destruct v).
  apply jsonElement_isJSON.
Qed.

Lemma jsonValue_idem v : jsonValue (jsonValue v) = jsonValue v.
Proof.
  destruct v; try done; apply isJSON_jsonValue, jsonValue_isJSON; done.
Qed.

Lemma json_list_copy l : json_list l -> List.map jsonElement l = l.
Proof.
  unfold json_list. induction l as [|x r IH]; [done|].
  simpl. intros [Hx Hr]%andb_prop. rewrite IH by done.
  by rewrite isJSON_jsonElement.
Qed.

Lemma JSON_copy_array l :
  JSON_parse_stringify (Arr l) = Normal (Arr (List.map jsonElement l)).
Proof.
  unfold JSON_parse_stringify. simpl JSON_stringify. cbv beta iota.
  change (List.map _ l) with (List.map jsonElement l).
  unfold JSON_parse. rewrite jsonValue_Arr. f_equal. f_equal.
  rewrite List.map_map. apply List.map_ext. intros; apply jsonElement_idem.
Qed.

Lemma loadDefault_eq dp : loadDefault dp = Normal (Obj (jsonProps dp)).
Proof.
  unfold loadDefault, JSON_parse_stringify. simpl JSON_stringify. cbv beta iota.
  change (JSON_parse (JsonText (jsonValue (Obj dp))) = Normal (jsonValue (Obj dp))).
  rewrite <- (jsonValue_idem (Obj dp)) at 2. reflexivity.
Qed.

(** ** Properties of objects *)

Lemma assoc_jsonProps k ps x :
  assoc k ps = Some x -> x <> Undefined ->
  assoc k (jsonProps ps) = Some (jsonValue x).
Proof.
  intros Hk Hx. induction ps as [|[k' y] r IH]; [done|].
  simpl in Hk. destruct (bool_decide (k' = k)) eqn:E.
  - simplify_eq. destruct x; try done; simpl; by rewrite E.
  - specialize (IH Hk). destruct y; simpl; rewrite ?E; done.
Qed.

Lemma assoc_assign k x ps : assoc k (assign k x ps) = Some x.
Proof.
  induction ps as [|[k' y] r IH]; simpl.
  - by rewrite bool_decide_eq_true_2.
  - destruct (bool_decide (k' = k)) eqn:E; simpl.
    + by rewrite bool_decide_eq_true_2.
    + by rewrite E.
Qed.

Lemma assoc_assign_ne k k' x ps : k' <> k -> assoc k (assign k' x ps) = assoc k ps.
Proof.
  intros Hne. induction ps as [|[k0 y] r IH]; simpl.
  - by rewrite bool_decide_eq_false_2.
  - destruct (bool_decide (k0 = k')) eqn:E; simpl.
    + apply bool_decide_eq_true_1 in E as ->.
      by rewrite !bool_decide_eq_false_2.
    + by rewrite IH.
Qed.

Lemma isJSON_assign k x ps :
  isJSON x = true -> isJSON (Obj ps) = true -> isJSON (Obj (assign k x ps)) = true.
Proof.
  simpl. intros Hx. induction ps as [|[k' y] r IH]; simpl.
  - by rewrite Hx.
  - intros [Hy Hr]%andb_prop. destruct (bool_decide (k' = k)); simpl in *.
    + by rewrite Hx, Hr.
    + by rewrite Hy, IH.
Qed.

Lemma truthy_jsonValue v : truthy (jsonValue v) = truthy v.
Proof. by destruct v. Qed.

Lemma truthy_defined v : truthy v = true -> v <> Undefined.
Proof. by destruct v. Qed.

Lemma get_has_properties v k a : get v k = Normal a -> has_properties v.
Proof. by destruct v. Qed.

Lemma has_properties_get v k : has_properties v -> exists a, get v k = Normal a.
Proof. destruct v; simpl; try done; eauto. Qed.

Lemma isJSON_seeded dp dt : truthy dt = true -> isJSON (seeded dp dt) = true.
Proof.
  intros Htr. apply isJSON_assign.
  - simpl. by rewrite jsonValue_isJSON by (by apply truthy_defined).
  - apply (jsonElement_isJSON (Obj dp)).
Qed.

(** ** [mergeDefaultTeams]: order, lock and duplicates *)

(** The list [mergeDefaultTeams] returns, for every build and every list of
    user teams: the copies of the vendor defaults, then, with server
    management on, the copies of the user's teams. *)
Lemma mergeDefaultTeams_eq bc servers :
  mergeDefaultTeams bc servers =
    Normal (List.map jsonElement (defaultTeams bc) ++
            if enableServerManagement bc then List.map jsonElement servers
            else []).
Proof.
  unfold mergeDefaultTeams, hasBuildConfigDefaultTeams.
  rewrite !JSON_copy_array.
  destruct (defaultTeams bc) as [|d ds] eqn:Hd; simpl;
    destruct (enableServerManagement bc); simpl; try done.
  all: by rewrite ?app_nil_r.
Qed.

Lemma count_url_app u l1 l2 :
  count_url u (l1 ++ l2) = (count_url u l1 + count_url u l2)%nat.
Proof. unfold count_url. by rewrite List.filter_app, length_app. Qed.

(** C7.  For every list of user teams (teams being JSON data, as the vendor
    defaults are): with server management off, [mergeDefaultTeams] returns
    exactly the vendor defaults in their configured order and no user entry;
    with server management on, it returns the vendor defaults followed by
    the user's teams in their stored order. *)
Theorem mergeDefaultTeams_lock_and_order bc servers :
  json_list (defaultTeams bc) -> json_list servers ->
  (enableServerManagement bc = false ->
     mergeDefaultTeams bc servers = Normal (defaultTeams bc)) /\
  (enableServerManagement bc = true ->
     mergeDefaultTeams bc servers = Normal (defaultTeams bc ++ servers)).
Proof.
  intros Hd Hs. rewrite mergeDefaultTeams_eq, !json_list_copy by done.
  split; intros ->; [by rewrite app_nil_r | done].
Qed.

Lemma mergeDefaultTeams_lock_and_order_witness :
  mergeDefaultTeams vendor_a_locked user_a = Normal (defaultTeams vendor_a_locked) /\
  mergeDefaultTeams vendor_a user_a = Normal (defaultTeams vendor_a ++ user_a).
Proof.
  split.
  - apply (proj1 (mergeDefaultTeams_lock_and_order vendor_a_locked user_a
                    eq_refl eq_refl)). reflexivity.
  - apply (proj2 (mergeDefaultTeams_lock_and_order vendor_a user_a
                    eq_refl eq_refl)). reflexivity.
Defined.

(** C1, as stated, fails on the merge example of the specification: with
    vendor default [{url:"a"}] and user team [{url:"a", name:"mine"}] the
    list returned does not hold exactly one entry for "a". *)
Lemma mergeDefaultTeams_keeps_both_entries :
  ~ (forall merged, mergeDefaultTeams vendor_a user_a = Normal merged ->
       count_url "a" merged = 1%nat /\ merged = user_a).
Proof.
  intros H. destruct (H _ eq_refl) as [Hc _]. vm_compute in Hc. discriminate.
Qed.

(** C1, amended.  For every vendor-default list and user-team list (of JSON
    data), [mergeDefaultTeams] with server management on removes nothing:
    the list returned is the vendor defaults followed by the user's teams,
    each in its own order.  So for every url it has as many entries with
    that url as the vendor defaults and the user's teams have together, and
    when the vendor default at position [i] and the user team at position
    [j] share a url, both entries are returned, the vendor's at position [i]
    and the user's, with its display name, after it at position
    [length defaults + j]. *)
Theorem mergeDefaultTeams_no_dedup bc servers u :
  json_list (defaultTeams bc) -> json_list servers ->
  enableServerManagement bc = true ->
  exists merged,
    mergeDefaultTeams bc servers = Normal merged /\
    merged = defaultTeams bc ++ servers /\
    count_url u merged =
      (count_url u (defaultTeams bc) + count_url u servers)%nat /\
    (forall i j vendor user,
       defaultTeams bc !! i = Some vendor -> servers !! j = Some user ->
       has_url u vendor = true -> has_url u user = true ->
       merged !! i = Some vendor /\
       merged !! (length (defaultTeams bc) + j)%nat = Some user /\
       (i < length (defaultTeams bc) + j)%nat).
Proof.
  intros Hd Hs He. exists (defaultTeams bc ++ servers).
  rewrite mergeDefaultTeams_eq, He, !json_list_copy by done.
  split; [done|]. split; [done|]. split; [apply count_url_app|].
  intros i j vendor user Hi Hj _ _. split; [|split].
  - by apply lookup_app_l_Some.
  - by rewrite lookup_app_r, Nat.add_comm, Nat.add_sub by lia.
  - apply lookup_lt_Some in Hi. lia.
Qed.

Lemma mergeDefaultTeams_no_dedup_witness :
  exists merged,
    mergeDefaultTeams vendor_a user_a = Normal merged /\
    merged = defaultTeams vendor_a ++ user_a /\
    count_url "a" merged = 2%nat /\
    (forall i j vendor user,
       defaultTeams vendor_a !! i = Some vendor -> user_a !! j = Some user ->
       has_url "a" vendor = true -> has_url "a" user = true ->
       merged !! i = Some vendor /\
       merged !! (length (defaultTeams vendor_a) + j)%nat = Some user /\
       (i < length (defaultTeams vendor_a) + j)%nat).
Proof.
  apply (mergeDefaultTeams_no_dedup vendor_a user_a "a"); reflexivity.
Defined.

(** ** The file system calls *)

Lemma next_outcome_files d : files (next_outcome d).2 = files d.
Proof. unfold next_outcome. by destruct (script d). Qed.

Lemma fs_mkdirSync_files d p : files (fs_mkdirSync d p).2 = files d.
Proof.
  unfold fs_mkdirSync. pose proof (next_outcome_files d) as H.
  destruct (next_outcome d) as [o d']. simpl in H.
  destruct o; simpl; try done.
  repeat case_match; simpl; done.
Qed.

Lemma fs_writeFileSync_files d p data :
  match (fs_writeFileSync d p data).1 with
  | Normal _ => files (fs_writeFileSync d p data).2 = <[p := data]> (files d)
  | Throw e =>
      files (fs_writeFileSync d p data).2 = files d \/
      e = SystemError "ENOSPC" /\
      exists n, files (fs_writeFileSync d p data).2 = <[p := cut n data]> (files d)
  end.
Proof.
  unfold fs_writeFileSync. pose proof (next_outcome_files d) as H.
  destruct (next_outcome d) as [o d']. simpl in H.
  destruct o; simpl; [| by left |];
    destruct (is_dir d' p); simpl; [by rewrite ?H; auto| | by rewrite ?H; auto |];
    destruct (is_dir d' (path_dirname p)); simpl; rewrite ?H; eauto.
Qed.

Lemma fs_writeFileSync_other d p data q :
  q <> p -> files (fs_writeFileSync d p data).2 !! q = files d !! q.
Proof.
  intros Hq. pose proof (fs_writeFileSync_files d p data) as H.
  destruct (fs_writeFileSync d p data).1.
  - rewrite H. by rewrite lookup_insert_ne.
  - destruct H as [-> | [_ [n ->]]]; [done|]. by rewrite lookup_insert_ne.
Qed.

Lemma fs_mkdirSync_no_Error d p m : (fs_mkdirSync d p).1 <> Throw (Error m).
Proof.
  unfold fs_mkdirSync. destruct (next_outcome d) as [o d'].
  destruct o; simpl; try done. repeat case_match; simpl; done.
Qed.

Lemma fs_writeFileSync_no_Error d p t m :
  (fs_writeFileSync d p t).1 <> Throw (Error m).
Proof.
  unfold fs_writeFileSync. destruct (next_outcome d) as [o d'].
  destruct o; simpl; try done; destruct (is_dir d' p); simpl; try done;
  destruct (is_dir d' (path_dirname p)); simpl; done.
Qed.

(** ** Statements *)

Lemma bind_unfold {A B} (m : JS A) (f : A -> JS B) w :
  (m ≫= f) w =
    match m w with
    | (Normal a, w') => f a w'
    | (Throw e, w') => (Throw e, w')
    end.
Proof. reflexivity. Qed.

Lemma bind_Normal_inv {A B} (m : JS A) (f : A -> JS B) w b w2 :
  (m ≫= f) w = (Normal b, w2) ->
  exists a w1, m w = (Normal a, w1) /\ f a w1 = (Normal b, w2).
Proof.
  unfold mbind, JS_bind. destruct (m w) as [[a|e] w1]; [eauto|done].
Qed.

Lemma lift_Normal_inv {A} (c : Completion A) w a w1 :
  lift c w = (Normal a, w1) -> c = Normal a /\ w1 = w.
Proof. unfold lift. by intros [= -> ->]. Qed.

Lemma mret_Normal_inv {A} (x : A) w a w1 :
  (mret x : JS A) w = (Normal a, w1) -> a = x /\ w1 = w.
Proof. unfold mret, JS_ret. by intros [= -> ->]. Qed.

Ltac js_unfold :=
  unfold mbind, JS_bind, mret, JS_ret, lift, throw, on_fs, path_arg,
    try_, with_fs in *; simpl in *.

(** ** [writeFileSync], [writeFile] and [save] *)

Lemma writeFileSync_guard dp cf config v w :
  get config "version" = Normal v ->
  strictEq v (currentVersion dp) = false ->
  writeFileSync dp cf config w = (Throw (Error (version_message dp v)), w).
Proof.
  intros Hv He. unfold writeFileSync. js_unfold. by rewrite Hv, He.
Qed.

Lemma writeFile_guard dp cf config v w :
  get config "version" = Normal v ->
  strictEq v (currentVersion dp) = false ->
  writeFile dp cf config w = (Throw (Error (version_message dp v)), w).
Proof.
  intros Hv He. unfold writeFile. js_unfold. by rewrite Hv, He.
Qed.

Lemma writeFileSync_passes_guard dp cf config v w m :
  get config "version" = Normal v ->
  strictEq v (currentVersion dp) = true ->
  (writeFileSync dp cf config w).1 <> Throw (Error m).
Proof.
  intros Hv He. unfold writeFileSync. js_unfold. rewrite Hv, He. simpl.
  destruct cf as [p|]; simpl; [|done].
  destruct (fs_existsSync (fs w) (path_dirname p)); simpl.
  - pose proof (fs_writeFileSync_no_Error (fs w) p
                  (data_text (JSON_stringify config)) m).
    destruct (fs_writeFileSync _ _ _) as [[]?]; simpl in *; done.
  - pose proof (fs_mkdirSync_no_Error (fs w) (path_dirname p) m).
    destruct (fs_mkdirSync _ _) as [[] d1]; simpl in *; [|done].
    pose proof (fs_writeFileSync_no_Error d1 p
                  (data_text (JSON_stringify config)) m).
    destruct (fs_writeFileSync _ _ _) as [[]?]; simpl in *; done.
Qed.

Lemma writeFile_passes_guard dp cf config v w m :
  get config "version" = Normal v ->
  strictEq v (currentVersion dp) = true ->
  (writeFile dp cf config w).1 <> Throw (Error m).
Proof.
  intros Hv He. unfold writeFile, fs_writeFile. js_unfold. by rewrite Hv, He.
Qed.

(** What [writeFileSync] does to the files: nothing to any other path; the
    whole document at its own path when it returns; nothing, or a cut-off
    document, when it throws. *)
Lemma writeFileSync_files dp p config w :
  (forall q, q <> p ->
     files (fs (writeFileSync dp (Some p) config w).2) !! q = files (fs w) !! q) /\
  match (writeFileSync dp (Some p) config w).1 with
  | Normal _ =>
      files (fs (writeFileSync dp (Some p) config w).2) !! p =
        Some (data_text (JSON_stringify config))
  | Throw e =>
      files (fs (writeFileSync dp (Some p) config w).2) !! p = files (fs w) !! p \/
      e = SystemError "ENOSPC" /\
      exists n, files (fs (writeFileSync dp (Some p) config w).2) !! p =
                  Some (cut n (data_text (JSON_stringify config)))
  end.
Proof.
  unfold writeFileSync. js_unfold.
  destruct (get config "version") as [v|e]; simpl; [|by auto].
  destruct (strictEq v (currentVersion dp)); simpl; [|by auto].
  set (data := data_text (JSON_stringify config)).
  assert (Hw : forall d, files d = files (fs w) ->
    (forall q, q <> p ->
       files (fs_writeFileSync d p data).2 !! q = files (fs w) !! q) /\
    match (fs_writeFileSync d p data).1 with
    | Normal _ => files (fs_writeFileSync d p data).2 !! p = Some data
    | Throw e => files (fs_writeFileSync d p data).2 !! p = files (fs w) !! p \/
        e = SystemError "ENOSPC" /\
        exists n, files (fs_writeFileSync d p data).2 !! p = Some (cut n data)
    end).
  { intros d Hd. split.
    - intros q Hq. by rewrite fs_writeFileSync_other, Hd.
    - pose proof (fs_writeFileSync_files d p data) as H.
      destruct (fs_writeFileSync d p data).1.
      + by rewrite H, lookup_insert_eq.
      + destruct H as [-> | [-> [n ->]]]; [left; by rewrite Hd|].
        right; split; [done|]. exists n. by rewrite lookup_insert_eq. }
  destruct (fs_existsSync (fs w) (path_dirname p)); simpl.
  - specialize (Hw (fs w) eq_refl).
    destruct (fs_writeFileSync (fs w) p data) as [[] d2]; simpl in *; done.
  - pose proof (fs_mkdirSync_files (fs w) (path_dirname p)) as Hm.
    destruct (fs_mkdirSync (fs w) (path_dirname p)) as [[] d1]; simpl in *.
    + specialize (Hw d1 Hm).
      destruct (fs_writeFileSync d1 p data) as [[] d2]; simpl in *; done.
    + rewrite Hm. auto.
Qed.

Lemma writeFileSync_Normal_file dp p config w w' :
  writeFileSync dp (Some p) config w = (Normal (), w') ->
  files (fs w') !! p = Some (data_text (JSON_stringify config)).
Proof.
  intros H. pose proof (writeFileSync_files dp p config w) as [_ Hf].
  by rewrite H in Hf.
Qed.

Lemma writeFileSync_Normal_has_properties dp cf config w w' :
  writeFileSync dp cf config w = (Normal (), w') -> has_properties config.
Proof.
  unfold writeFileSync. intros H.
  apply bind_Normal_inv in H as (v & w1 & Hv & _).
  apply lift_Normal_inv in Hv as [Hv _]. by eapply get_has_properties.
Qed.

(** C3, as stated, fails: when the write of [save] breaks off after it has
    emptied the file, the document that was on disk is gone. *)
Lemma save_interrupted_write_damages_file :
  ~ (forall e,
       (Settings.save prefs_v1 new_doc disk_full_world).1 = Throw e ->
       files (fs (Settings.save prefs_v1 new_doc disk_full_world).2) !! config_path
         = files (fs disk_full_world) !! config_path).
Proof.
  intros H. specialize (H (SystemError "ENOSPC") eq_refl).
  vm_compute in H. discriminate.
Qed.

(** C3, amended.  [save] writes the document straight into the configuration
    file, with no temporary file and no rename: no other file is created or
    changed; when [save] returns, the file holds the document; when it
    throws, the file is as it was before (the failure came before the file
    was opened: version guard, path, directory creation, refused write) or
    holds the beginning of the new document (the write broke off). *)
Theorem save_writes_in_place dp config w p :
  configFile w = Some p ->
  (forall q, q <> p ->
     files (fs (Settings.save dp config w).2) !! q = files (fs w) !! q) /\
  match (Settings.save dp config w).1 with
  | Normal _ =>
      files (fs (Settings.save dp config w).2) !! p =
        Some (data_text (JSON_stringify config))
  | Throw e =>
      files (fs (Settings.save dp config w).2) !! p = files (fs w) !! p \/
      e = SystemError "ENOSPC" /\
      exists n, files (fs (Settings.save dp config w).2) !! p =
                  Some (cut n (data_text (JSON_stringify config)))
  end.
Proof.
  intros Hp. unfold Settings.save. rewrite Hp. apply writeFileSync_files.
Qed.

Lemma save_writes_in_place_witness :
  (forall q, q <> config_path ->
     files (fs (Settings.save prefs_v1 new_doc disk_full_world).2) !! q
       = files (fs disk_full_world) !! q) /\
  (files (fs (Settings.save prefs_v1 new_doc disk_full_world).2) !! config_path
     = files (fs disk_full_world) !! config_path \/
   SystemError "ENOSPC" = SystemError "ENOSPC" /\
   exists n,
     files (fs (Settings.save prefs_v1 new_doc disk_full_world).2) !! config_path
       = Some (cut n (data_text (JSON_stringify new_doc)))).
Proof.
  exact (save_writes_in_place prefs_v1 new_doc disk_full_world config_path eq_refl).
Defined.

(** C6.  For every document whose [version] is not the current one, [save]
    (and the asynchronous [writeFile]) throws at once and leaves the world
    as it is: no file content, no directory, nothing queued.  For a document
    at the current version the guard does not fire: whatever [save] does
    then, it does not throw the guard's error. *)
Theorem save_version_guard dp config v w :
  get config "version" = Normal v ->
  (strictEq v (currentVersion dp) = false ->
     Settings.save dp config w = (Throw (Error (version_message dp v)), w) /\
     writeFile dp (configFile w) config w
       = (Throw (Error (version_message dp v)), w)) /\
  (strictEq v (currentVersion dp) = true ->
     forall m, (Settings.save dp config w).1 <> Throw (Error m) /\
               (writeFile dp (configFile w) config w).1 <> Throw (Error m)).
Proof.
  intros Hv. split; intros He.
  - split; [by apply writeFileSync_guard | by apply writeFile_guard].
  - intros m. split;
      [by eapply writeFileSync_passes_guard | by eapply writeFile_passes_guard].
Qed.

Lemma save_version_guard_witness :
  (Settings.save prefs_v1 stale_doc disk_full_world
     = (Throw (Error "version 0 is not equal to 1"), disk_full_world) /\
   writeFile prefs_v1 (Some config_path) stale_doc disk_full_world
     = (Throw (Error "version 0 is not equal to 1"), disk_full_world)) /\
  (forall m,
     (Settings.save prefs_v1 new_doc disk_full_world).1 <> Throw (Error m) /\
     (writeFile prefs_v1 (Some config_path) new_doc disk_full_world).1
       <> Throw (Error m)).
Proof.
  split.
  - apply (save_version_guard prefs_v1 stale_doc (Num 0) disk_full_world);
      reflexivity.
  - apply (save_version_guard prefs_v1 new_doc (Num 1) disk_full_world);
      reflexivity.
Defined.

(** ** [init]: loading, seeding, and the policy step *)

Lemma load_or_upgrade_has_properties dp up cf w config w' :
  load_or_upgrade dp up cf w = (Normal config, w') -> has_properties config.
Proof.
  unfold load_or_upgrade. intros H.
  apply bind_Normal_inv in H as (c0 & w0 & _ & H).
  apply bind_Normal_inv in H as (v & w1 & Hv & H).
  apply lift_Normal_inv in Hv as [Hv _].
  destruct (negb (strictEq v (currentVersion dp))).
  - apply bind_Normal_inv in H as (c1 & w2 & _ & H).
    apply bind_Normal_inv in H as ([] & w3 & Hw & H).
    apply mret_Normal_inv in H as [-> _].
    by eapply writeFileSync_Normal_has_properties.
  - apply mret_Normal_inv in H as [-> _]. by eapply get_has_properties.
Qed.

Lemma load_defaults_has_properties dp cf e w config w' :
  load_defaults dp cf e w = (Normal config, w') -> has_properties config.
Proof.
  unfold load_defaults. intros H.
  apply bind_Normal_inv in H as (? & w0 & _ & H).
  apply bind_Normal_inv in H as (c & w1 & Hc & H).
  apply lift_Normal_inv in Hc as [Hc _]. rewrite loadDefault_eq in Hc.
  injection Hc as <-.
  apply bind_Normal_inv in H as (teams & w2 & _ & H).
  apply bind_Normal_inv in H as (len & w3 & _ & H).
  apply bind_Normal_inv in H as (seed & w4 & _ & H).
  destruct (truthy seed).
  - apply bind_Normal_inv in H as (dt & w5 & _ & H).
    apply bind_Normal_inv in H as (teams' & w6 & _ & H).
    apply bind_Normal_inv in H as ([] & w7 & _ & H).
    by apply mret_Normal_inv in H as [-> _].
  - by apply mret_Normal_inv in H as [-> _].
Qed.

Lemma load_config_has_properties dp up cf w config w' :
  load_config dp up cf w = (Normal config, w') -> has_properties config.
Proof.
  unfold load_config, try_.
  destruct (load_or_upgrade dp up cf w) as [[c|e] w0] eqn:E.
  - intros [= <- <-]. by eapply load_or_upgrade_has_properties.
  - apply load_defaults_has_properties.
Qed.

(** The [catch] block when the defaults have no team and a [defaultTeam]:
    the seeded document is written, and returned if the write returns. *)
Lemma load_defaults_seeds dp cf e w dt :
  assoc "teams" dp = Some (Arr []) ->
  assoc "defaultTeam" dp = Some dt ->
  truthy dt = true ->
  load_defaults dp cf e w =
    match writeFileSync dp cf (seeded dp dt) (console_log e w).2 with
    | (Normal _, w') => (Normal (seeded dp dt), w')
    | (Throw e', w') => (Throw e', w')
    end.
Proof.
  intros Ht Hd Htr. unfold load_defaults.
  unfold mbind at 1, JS_bind at 1. simpl (console_log e w).
  unfold mbind at 1, JS_bind at 1. unfold lift at 1. rewrite loadDefault_eq.
  simpl get.
  rewrite (assoc_jsonProps _ _ _ Ht) by done.
  rewrite (assoc_jsonProps _ _ _ Hd) by (by apply truthy_defined).
  unfold mbind, JS_bind, lift, mret, JS_ret. simpl.
  rewrite truthy_jsonValue, Htr. unfold seeded.
  by destruct (writeFileSync _ _ _ _) as [[] ?].
Qed.

(** [init] is its [try]/[catch] statement followed by the hardware
    acceleration call: the [win32] branch between the two is empty. *)
Lemma init_eq dp up w :
  Settings.init dp up w =
    match load_config dp up (Some (config_json w)) (configured w) with
    | (Normal config, w1) =>
        match get config "enableHardwareAcceleration" with
        | Normal a =>
            if strictEq a (Bool false)
            then (Normal config, (app_disableHardwareAcceleration w1).2)
            else (Normal config, w1)
        | Throw e => (Throw e, w1)
        end
    | (Throw e, w1) => (Throw e, w1)
    end.
Proof.
  unfold Settings.init, configured, config_json.
  rewrite bind_unfold. cbv beta iota.
  rewrite bind_unfold. unfold set_configFile. cbv beta iota.
  rewrite bind_unfold. cbv beta iota. simpl configFile.
  rewrite bind_unfold. simpl snd.
  destruct (load_config _ _ _ _) as [[config|e] w1]; [|done].
  rewrite bind_unfold. cbv beta iota.
  rewrite bind_unfold.
  assert (Hskip : forall os : string,
            (if bool_decide (os = "win32") then mret () else mret () : JS ()) w1
              = (Normal (), w1)) by (intros; by case_bool_decide).
  rewrite Hskip. cbv beta iota.
  rewrite bind_unfold. unfold lift at 1.
  destruct (get config "enableHardwareAcceleration") as [a|e]; [|done].
  rewrite bind_unfold.
  destruct (strictEq a (Bool false)); done.
Qed.

Lemma init_eq_result dp up w :
  (Settings.init dp up w).1
    = (load_config dp up (Some (config_json w)) (configured w)).1 /\
  fs (Settings.init dp up w).2
    = fs (load_config dp up (Some (config_json w)) (configured w)).2.
Proof.
  rewrite init_eq.
  destruct (load_config _ _ _ _) as [[config|e] w1] eqn:E; [|done].
  apply load_config_has_properties in E.
  destruct (has_properties_get config "enableHardwareAcceleration" E) as [a ->].
  by destruct (strictEq a (Bool false)).
Qed.

(** C5, as stated, fails on the seeding example of the specification: with
    no file and [defaultTeam] the url "https://seed", the one team of the
    document [init] returns is not a team whose [url] is that url. *)
Lemma init_seeds_bare_url :
  ~ (forall doc,
       (Settings.init prefs_seed_url keep first_run).1 = Normal doc ->
       exists team,
         get doc "teams" = Normal (Arr [team]) /\
         url_of team = Str "https://seed").
Proof.
  intros H. destruct (H _ eq_refl) as (team & Ht & Hu).
  vm_compute in Ht. injection Ht as <-. vm_compute in Hu. discriminate.
Qed.

(** C5, amended.  When the [try] block of [init] throws (the file is absent
    or unreadable, among other causes), the default document has no teams
    and its [defaultTeam] is set, [init] puts the document's [defaultTeam]
    value itself, as it is, into the teams list as its only entry, and
    writes that document to the configuration file at once: when the write
    returns, [init] returns the document and the file holds its rendering;
    when the write throws, [init] throws the same. *)
Theorem init_seeds_default_team dp up w e w1 dt :
  load_or_upgrade dp up (Some (config_json w)) (configured w) = (Throw e, w1) ->
  assoc "teams" dp = Some (Arr []) ->
  assoc "defaultTeam" dp = Some dt ->
  truthy dt = true ->
  get (seeded dp dt) "defaultTeam" = Normal (jsonValue dt) /\
  get (seeded dp dt) "teams" = Normal (Arr [jsonValue dt]) /\
  JSON_stringify (seeded dp dt) = Some (JsonText (seeded dp dt)) /\
  match writeFileSync dp (Some (config_json w)) (seeded dp dt) (console_log e w1).2
  with
  | (Normal _, _) =>
      (Settings.init dp up w).1 = Normal (seeded dp dt) /\
      files (fs (Settings.init dp up w).2) !! config_json w
        = Some (JsonText (seeded dp dt))
  | (Throw e', _) => (Settings.init dp up w).1 = Throw e'
  end.
Proof.
  intros Hload Ht Hd Htr.
  assert (Hjson : jsonValue (seeded dp dt) = seeded dp dt)
    by (by apply isJSON_jsonValue, isJSON_seeded).
  assert (Hdata : JSON_stringify (seeded dp dt) = Some (JsonText (seeded dp dt))).
  { unfold seeded at 1. simpl. fold (seeded dp dt).
    change (Some (JsonText (jsonValue (seeded dp dt)))
            = Some (JsonText (seeded dp dt))).
    by rewrite Hjson. }
  split.
  { unfold seeded. simpl. rewrite assoc_assign_ne by done.
    by rewrite (assoc_jsonProps _ _ _ Hd) by (by apply truthy_defined). }
  split.
  { unfold seeded. simpl. by rewrite assoc_assign. }
  split; [done|].
  destruct (init_eq_result dp up w) as [-> ->].
  unfold load_config, try_. rewrite Hload.
  rewrite (load_defaults_seeds _ _ _ _ dt) by done.
  destruct (writeFileSync _ _ _ _) as [[[]|e'] w2] eqn:Hw; [|done].
  split; [done|]. simpl snd.
  by rewrite (writeFileSync_Normal_file _ _ _ _ _ Hw), Hdata.
Qed.

Lemma init_seeds_default_team_witness :
  get (seeded prefs_seed_team seed_team) "defaultTeam" = Normal seed_team /\
  get (seeded prefs_seed_team seed_team) "teams" = Normal (Arr [seed_team]) /\
  JSON_stringify (seeded prefs_seed_team seed_team)
    = Some (JsonText (seeded prefs_seed_team seed_team)) /\
  (Settings.init prefs_seed_team keep first_run).1
    = Normal (seeded prefs_seed_team seed_team) /\
  files (fs (Settings.init prefs_seed_team keep first_run).2) !! config_path
    = Some (JsonText (seeded prefs_seed_team seed_team)).
Proof.
  exact (init_seeds_default_team prefs_seed_team keep first_run
           (SystemError "ENOENT")
           (load_or_upgrade prefs_seed_team keep (Some config_path)
              (configured first_run)).2
           seed_team eq_refl eq_refl eq_refl eq_refl).
Defined.

(** C8.  For every document whose [version] is the current one: the Upgrade
    Chain returns it unchanged, and the load path of [init], having read it,
    returns it as read, whatever the upgrade function is: the function is
    not applied to it and nothing is written. *)
Theorem current_version_is_left_alone dp up migrations config v :
  get config "version" = Normal v ->
  strictEq v (currentVersion dp) = true ->
  upgradeChain migrations (currentVersion dp) config = Normal config /\
  forall cf w w',
    readFileSync dp cf w = (Normal config, w') ->
    load_or_upgrade dp up cf w = (Normal config, w').
Proof.
  intros Hv He. split.
  - unfold upgradeChain. rewrite Hv. simpl. by rewrite He.
  - intros cf w w' Hr. unfold load_or_upgrade.
    rewrite bind_unfold, Hr. rewrite bind_unfold. unfold lift at 1.
    rewrite Hv. by rewrite He.
Qed.

Lemma current_version_is_left_alone_witness :
  upgradeChain [wreck] (currentVersion prefs_v1) merged_old_doc
    = Normal merged_old_doc /\
  load_or_upgrade prefs_v1 wreck (Some config_path) current_world
    = (Normal merged_old_doc, current_world).
Proof.
  destruct (current_version_is_left_alone prefs_v1 wreck [wreck] merged_old_doc
              (Num 1) eq_refl eq_refl) as [H1 H2].
  split; [exact H1|]. apply H2. reflexivity.
Defined.

(** ** The policy store has no part in [init] *)

Lemma blind_ret {A} (a : A) : policy_blind (mret a : JS A).
Proof. done. Qed.

Lemma blind_lift {A} (c : Completion A) : policy_blind (lift c).
Proof. done. Qed.

Lemma blind_throw {A} e : policy_blind (throw (A := A) e).
Proof. done. Qed.

Lemma blind_bind {A B} (m : JS A) (f : A -> JS B) :
  policy_blind m -> (forall a, policy_blind (f a)) -> policy_blind (m ≫= f).
Proof.
  intros Hm Hf reg os w. rewrite !bind_unfold, Hm.
  destruct (m w) as [[a|e] w1]; simpl; [apply Hf | done].
Qed.

Lemma blind_try {A} (m : JS A) (h : exn -> JS A) :
  policy_blind m -> (forall e, policy_blind (h e)) -> policy_blind (try_ m h).
Proof.
  intros Hm Hh reg os w. unfold try_. rewrite Hm.
  destruct (m w) as [[a|e] w1]; simpl; [done | apply Hh].
Qed.

Lemma blind_on_fs {A} (op : FS -> Completion A * FS) : policy_blind (on_fs op).
Proof. intros reg os w. unfold on_fs. simpl. by destruct (op (fs w)). Qed.

Lemma blind_path_arg p : policy_blind (path_arg p).
Proof. by destruct p. Qed.

Lemma blind_console_log e : policy_blind (console_log e).
Proof. done. Qed.

Lemma blind_if {A} (b : bool) (m1 m2 : JS A) :
  policy_blind m1 -> policy_blind m2 -> policy_blind (if b then m1 else m2).
Proof. by destruct b. Qed.

Create HintDb blind.
#[local] Hint Resolve blind_ret blind_lift blind_throw blind_on_fs blind_path_arg
  blind_console_log : blind.

Ltac blind :=
  repeat first
    [ apply blind_bind; [|intros ?]
    | apply blind_if
    | apply blind_try; [|intros ?]
    | solve [auto with blind] ].

Lemma blind_readFileSync dp cf : policy_blind (readFileSync dp cf).
Proof. unfold readFileSync. blind. Qed.

Lemma blind_writeFileSync dp cf config : policy_blind (writeFileSync dp cf config).
Proof. unfold writeFileSync. blind. Qed.

#[local] Hint Resolve blind_readFileSync blind_writeFileSync : blind.

Lemma blind_load_config dp up cf : policy_blind (load_config dp up cf).
Proof. unfold load_config, load_or_upgrade, load_defaults. blind. Qed.

Lemma blind_platform {A} (m : JS A) w :
  policy_blind m -> platform (m w).2 = platform w.
Proof.
  intros Hm. specialize (Hm (registry w) (platform w) w).
  replace (with_policy (registry w) (platform w) w) with w in Hm by (by destruct w).
  apply (f_equal snd) in Hm. simpl in Hm. by rewrite Hm.
Qed.

(** The policy store and the platform play no part in [init] of
    [settings.js], whose [win32] branch is empty: whatever policy store and
    platform are put in the world's place, [init] returns what its
    load/upgrade/seed step produced and leaves the files as that step left
    them. *)
Lemma init_ignores_policy dp up w reg os :
  (Settings.init dp up (with_policy reg os w)).1
    = (load_config dp up (Some (config_json w)) (configured w)).1 /\
  fs (Settings.init dp up (with_policy reg os w)).2
    = fs (load_config dp up (Some (config_json w)) (configured w)).2.
Proof.
  destruct (init_eq_result dp up (with_policy reg os w)) as [-> ->].
  change (configured (with_policy reg os w)) with (with_policy reg os (configured w)).
  change (config_json (with_policy reg os w)) with (config_json w).
  by rewrite blind_load_config.
Qed.

(** The draft, for the record: its two policy functions throw on their first
    statement, and so does the [win32] branch of its [init]. *)
Lemma Part000_policy_functions_throw reg :
  Part000.isAddingNewServerPreventedByGPO reg = Throw (ReferenceError "Registry") /\
  Part000.getDefaultServerListFromGPO reg = Throw (ReferenceError "Registry").
Proof. done. Qed.

Lemma Part000_init_throws_on_win32 dp up config0 w :
  platform w = "win32" ->
  (exists e, (Part000.init dp up config0 w).1 = Throw e) /\
  forall doc w1,
    load_config dp up (Some (config_json w)) w = (Normal doc, w1) ->
    (Part000.init dp up config0 w).1
      = Throw (ReferenceError "isAddingNewServerPrevented").
Proof.
  intros Hos.
  assert (Hinit : Part000.init dp up config0 w =
    match load_config dp up (Some (config_json w)) w with
    | (Normal doc, w1) =>
        (Throw (ReferenceError "isAddingNewServerPrevented"), w1)
    | (Throw e, w1) => (Throw e, w1)
    end).
  { unfold Part000.init, Part000.init_body, config_json.
    rewrite bind_unfold. rewrite bind_unfold. cbv beta iota zeta.
    rewrite bind_unfold.
    pose proof (blind_platform _ w (blind_load_config dp up
                  (Some (userData w ++ ["config.json"])))) as Hp.
    destruct (load_config _ _ _ _) as [[doc|e] w1] eqn:E; [|done].
    rewrite bind_unfold. cbv beta iota. simpl in Hp.
    rewrite Hp, Hos. rewrite bind_unfold. simpl. done. }
  rewrite Hinit. split.
  - destruct (load_config _ _ _ _) as [[doc|e] w1]; simpl; eauto.
  - by intros doc w1 ->.
Qed.

(** C2.  The policy-composition step on the replacement example of the
    specification, for every policy store (so also for the one that prevents
    adding servers and lists the server "p", and whether the library runs
    its callbacks at once or later).  [init] of [settings.js], whose replace
    and concat statements are inside a comment, returns the document it
    loaded: its teams are still the one team with url "a", not the policy's
    list.  [init] of the draft reaches its replace and push statements
    through [isAddingNewServerPrevented], a name the file does not declare,
    and throws a ReferenceError; the document is never handed out. *)
Theorem init_policy_step_spec_example reg :
  (Settings.init prefs_v1 keep (policy_world reg)).1 =
    Normal (merge (Obj prefs_v1) doc_a) /\
  get (merge (Obj prefs_v1) doc_a) "teams" = Normal (Arr [team_a]) /\
  files (fs (Settings.init prefs_v1 keep (policy_world reg)).2) =
    files (fs (policy_world reg)) /\
  (Part000.init prefs_v1 keep Undefined (policy_world reg)).1 =
    Throw (ReferenceError "isAddingNewServerPrevented").
Proof.
  split; [|split; [|split]].
  - reflexivity.
  - reflexivity.
  - reflexivity.
  - reflexivity.
Qed.

(** ** The policy store functions *)

Lemma getRegistryItemValue_cases reg regKey item :
  getRegistryItemValue reg regKey item = Normal Undefined \/
  exists e, getRegistryItemValue reg regKey item = Throw e.
Proof.
  unfold getRegistryItemValue, values.
  destruct (reg (key_hive regKey) (key_name regKey)) as [|items| |e]; simpl; eauto.
  destruct (find_item items item); simpl; eauto.
Qed.

(** C9.  For every state of the registry, [getRegistryItemValue] either
    throws or returns [undefined]; it returns [undefined] also when the
    callback has found the item and returned its value.  So the comparison
    with 1 in [isAddingNewServerPreventedByGPO] never holds, and that
    function either throws or returns [false]. *)
Theorem registry_value_never_reaches_caller reg :
  (forall regKey item,
     getRegistryItemValue reg regKey item = Normal Undefined \/
     exists e, getRegistryItemValue reg regKey item = Throw e) /\
  (forall regKey item items found,
     reg (key_hive regKey) (key_name regKey) = CallbackItems items ->
     find_item items item = Normal found ->
     getRegistryItemValue reg regKey item = Normal Undefined) /\
  (Settings.isAddingNewServerPreventedByGPO reg = Normal false \/
   exists e, Settings.isAddingNewServerPreventedByGPO reg = Throw e).
Proof.
  split; [apply getRegistryItemValue_cases|]. split.
  - intros regKey item items found Hr Hf.
    unfold getRegistryItemValue, values. rewrite Hr. simpl. by rewrite Hf.
  - unfold Settings.isAddingNewServerPreventedByGPO.
    set (user := {| key_hive := HKCU; key_name := policies_key |}).
    set (machine := {| key_hive := HKLM; key_name := policies_key |}).
    destruct (getRegistryItemValue_cases reg user "PreventAddNewServer")
      as [-> | [e1 ->]];
    destruct (getRegistryItemValue_cases reg machine "PreventAddNewServer")
      as [-> | [e2 ->]]; simpl;
    repeat match goal with
           | |- context [is_RegistryItemNotFoundException ?e] => destruct e; simpl
           end; eauto.
Qed.

Lemma registry_value_never_reaches_caller_witness :
  find_item [{| item_name := "PreventAddNewServer"; item_value := Num 1 |}]
    "PreventAddNewServer" = Normal (Num 1) /\
  getRegistryItemValue prevent_policy {| key_hive := HKCU; key_name := policies_key |}
    "PreventAddNewServer" = Normal Undefined /\
  Settings.isAddingNewServerPreventedByGPO prevent_policy = Normal false.
Proof.
  split; [reflexivity|]. split.
  - apply (proj1 (proj2 (registry_value_never_reaches_caller prevent_policy))
             {| key_hive := HKCU; key_name := policies_key |} "PreventAddNewServer"
             [{| item_name := "PreventAddNewServer"; item_value := Num 1 |}]
             (Num 1)); reflexivity.
  - reflexivity.
Defined.

(** C4 does not hold of the code.  On the ordering example of the
    specification, entries "2|Beta" and "1|Alpha", [getDefaultServerListFromGPO]
    throws when the library runs the callback at once (the inner loop leaves
    the token count 2 in [i], and [registryItems[2]] is [undefined]) and
    returns the empty list when the callback runs later; the draft throws
    on its first statement.  None of them returns Alpha and Beta. *)
Theorem getDefaultServerListFromGPO_spec_example fuel :
  Settings.getDefaultServerListFromGPO (S fuel) ordered_policy
    = Some (Throw (TypeError "value")) /\
  Settings.getDefaultServerListFromGPO (S fuel) no_policy = Some (Normal []) /\
  Part000.getDefaultServerListFromGPO ordered_policy
    = Throw (ReferenceError "Registry").
Proof. repeat split. Qed.

(** With two entries without separator, the one server returned has the
    first entry's name behind "undefined", no index, and the second entry's
    url. *)
Lemma getDefaultServerListFromGPO_two_servers :
  Settings.getDefaultServerListFromGPO 3 two_servers =
    Some (Normal [{| server_name := Str "undefinedAlpha";
                     server_index := Bool false;
                     server_url := Str "https://b" |}]).
Proof. reflexivity. Qed.

(** With three entries without separator the loop comes back to index 2 for
    ever: no amount of fuel gives a result. *)
Lemma server_loop_spins fuel servers :
  server_loop fuel three_plain_items 2 servers = None.
Proof.
  revert servers. induction fuel as [|fuel IH]; intros servers; [done|].
  simpl. apply IH.
Qed.

Lemma getDefaultServerListFromGPO_may_not_return fuel :
  Settings.getDefaultServerListFromGPO fuel plain_policy = None.
Proof.
  destruct fuel as [|fuel]; [done|].
  unfold Settings.getDefaultServerListFromGPO. simpl. apply server_loop_spins.
Qed.

(** ** [mergeDefaultTeams] and object identity *)

Section StoreFacts.
Import Store.

Lemma preserves_refl σ : preserves σ σ.
Proof. by intros l c. Qed.

Lemma preserves_trans σ1 σ2 σ3 :
  preserves σ1 σ2 -> preserves σ2 σ3 -> preserves σ1 σ3.
Proof. intros H1 H2 l c Hl. eauto. Qed.

Lemma preserves_app σ ext : preserves σ (σ ++ ext).
Proof. intros l c Hl. by apply lookup_app_l_Some. Qed.

Lemma preserves_insert σ σ' l c :
  preserves σ σ' -> length σ <= l -> preserves σ (<[l := c]> σ').
Proof.
  intros Hp Hl l' c' Hl'. pose proof (lookup_lt_Some _ _ _ Hl').
  rewrite list_lookup_insert_ne by lia. by apply Hp.
Qed.

Lemma fresh_word_mono n n' w : n' <= n -> fresh_word n w -> fresh_word n' w.
Proof. destruct w; simpl; auto. lia. Qed.

Lemma fresh_cell_mono n n' c : n' <= n -> fresh_cell n c -> fresh_cell n' c.
Proof.
  intros Hn Hc. eapply Forall_impl; [exact Hc|]. intros w. by apply fresh_word_mono.
Qed.

Lemma alloc_all_spec l : forall σ σ' ws,
  Forall (fun v => forall σ σ' w, alloc σ v = (σ', w) ->
            exists ext, σ' = σ ++ ext /\ fresh_word (length σ) w /\
                        Forall (fresh_cell (length σ)) ext) l ->
  alloc_all alloc σ l = (σ', ws) ->
  exists ext, σ' = σ ++ ext /\ Forall (fresh_word (length σ)) ws /\
              Forall (fresh_cell (length σ)) ext.
Proof.
  induction l as [|x r IH]; intros σ σ' ws Hall Ha; simpl in Ha.
  - injection Ha as <- <-. exists []. by rewrite app_nil_r.
  - apply Forall_cons in Hall as [Hx Hr].
    destruct (alloc σ x) as [σ1 w] eqn:E1.
    destruct (alloc_all alloc σ1 r) as [σ2 ws'] eqn:E2.
    injection Ha as <- <-.
    destruct (Hx _ _ _ E1) as (ext1 & -> & Hw & He1).
    destruct (IH _ _ _ Hr E2) as (ext2 & -> & Hws & He2).
    exists (ext1 ++ ext2). rewrite app_assoc. split; [done|].
    rewrite length_app in Hws, He2. split.
    + constructor; [done|].
      eapply Forall_impl; [exact Hws|]. intros w'. apply fresh_word_mono. lia.
    + apply Forall_app. split; [done|].
      eapply Forall_impl; [exact He2|]. intros c. apply fresh_cell_mono. lia.
Qed.

Lemma alloc_props_spec ps : forall σ σ' ws,
  Forall (fun kv => forall σ σ' w, alloc σ (snd kv) = (σ', w) ->
            exists ext, σ' = σ ++ ext /\ fresh_word (length σ) w /\
                        Forall (fresh_cell (length σ)) ext) ps ->
  alloc_props alloc σ ps = (σ', ws) ->
  exists ext, σ' = σ ++ ext /\ Forall (fresh_word (length σ)) (snd <$> ws) /\
              Forall (fresh_cell (length σ)) ext.
Proof.
  induction ps as [|[k x] r IH]; intros σ σ' ws Hall Ha; simpl in Ha.
  - injection Ha as <- <-. exists []. by rewrite app_nil_r.
  - apply Forall_cons in Hall as [Hx Hr]. simpl in Hx.
    destruct (alloc σ x) as [σ1 w] eqn:E1.
    destruct (alloc_props alloc σ1 r) as [σ2 ws'] eqn:E2.
    injection Ha as <- <-.
    destruct (Hx _ _ _ E1) as (ext1 & -> & Hw & He1).
    destruct (IH _ _ _ Hr E2) as (ext2 & -> & Hws & He2).
    exists (ext1 ++ ext2). rewrite app_assoc. split; [done|].
    rewrite length_app in Hws, He2. split.
    + simpl. constructor; [done|].
      eapply Forall_impl; [exact Hws|]. intros w'. apply fresh_word_mono. lia.
    + apply Forall_app. split; [done|].
      eapply Forall_impl; [exact He2|]. intros c. apply fresh_cell_mono. lia.
Qed.

Lemma alloc_spec v : forall σ σ' w,
  alloc σ v = (σ', w) ->
  exists ext, σ' = σ ++ ext /\ fresh_word (length σ) w /\
              Forall (fresh_cell (length σ)) ext.
Proof.
  induction v as [| | | | |l IH|ps IH] using val_ind; intros σ σ' w Ha;
    simpl in Ha;
    try (injection Ha as <- <-; exists []; by rewrite app_nil_r).
  - destruct (alloc_all alloc σ l) as [σ1 ws] eqn:E.
    injection Ha as <- <-.
    destruct (alloc_all_spec _ _ _ _ IH E) as (ext & -> & Hws & He).
    exists (ext ++ [CArr ws]). rewrite app_assoc. split; [done|]. split.
    + simpl. rewrite length_app. lia.
    + apply Forall_app. split; [done|]. by constructor.
  - destruct (alloc_props alloc σ ps) as [σ1 ws] eqn:E.
    injection Ha as <- <-.
    destruct (alloc_props_spec _ _ _ _ IH E) as (ext & -> & Hws & He).
    exists (ext ++ [CObj ws]). rewrite app_assoc. split; [done|]. split.
    + simpl. rewrite length_app. lia.
    + apply Forall_app. split; [done|]. by constructor.
Qed.

Lemma preserves_length σ σ' : preserves σ σ' -> length σ <= length σ'.
Proof.
  intros Hp. destruct (decide (length σ <= length σ')) as [|Hn]; [done|].
  destruct (lookup_lt_is_Some_2 σ (length σ')) as [c Hc]; [lia|].
  apply Hp in Hc. apply lookup_lt_Some in Hc. lia.
Qed.

Lemma grown_from_refl σ : grown_from σ σ.
Proof.
  split; [apply preserves_refl|]. intros l c Hl Hc.
  apply lookup_lt_Some in Hc. lia.
Qed.

Lemma keeps_ret {A} σ0 (a : A) (Q : A -> Prop) : Q a -> keeps σ0 (mret a) Q.
Proof. intros Ha σ r σ' Hg [= <- <-]. split; [done|]. by intros ? [= <-]. Qed.

Lemma keeps_bind {A B} σ0 (m : Heap A) (f : A -> Heap B) Q R :
  keeps σ0 m Q -> (forall a, Q a -> keeps σ0 (f a) R) -> keeps σ0 (m ≫= f) R.
Proof.
  intros Hm Hf σ r σ' Hg. unfold mbind, Heap_bind.
  destruct (m σ) as [[a|e] σ1] eqn:E; intros Hr.
  - destruct (Hm _ _ _ Hg E) as [Hg1 HQ]. eapply Hf; eauto.
  - injection Hr as <- <-. destruct (Hm _ _ _ Hg E) as [Hg1 _]. by split.
Qed.

Lemma keeps_weaken {A} σ0 (m : Heap A) (Q R : A -> Prop) :
  keeps σ0 m Q -> (forall a, Q a -> R a) -> keeps σ0 m R.
Proof.
  intros Hm HQR σ r σ' Hg E. destruct (Hm _ _ _ Hg E) as [Hg1 HQ].
  split; [done|]. intros a Ha. auto.
Qed.

Lemma keeps_new_array σ0 : keeps σ0 new_array (fun n => length σ0 <= n).
Proof.
  intros σ r σ' [Hp Hf] [= <- <-].
  pose proof (preserves_length _ _ Hp) as Hlen. split; [split|].
  - eapply preserves_trans; [exact Hp | apply preserves_app].
  - intros l c Hl Hc. apply lookup_app_Some in Hc as [Hc | [Hge Hc]].
    + by eapply Hf.
    + apply list_lookup_singleton_Some in Hc as [_ <-]. constructor.
  - by intros n [= <-].
Qed.

Lemma keeps_nonempty σ0 w : keeps σ0 (nonempty w) (fun _ => True).
Proof.
  intros σ r σ' Hg E. assert (σ' = σ) as ->; [|done].
  unfold nonempty in E. repeat case_match; by simplify_eq.
Qed.

Lemma keeps_stringify σ0 w : keeps σ0 (stringify w) (fun _ => True).
Proof.
  intros σ r σ' Hg E. assert (σ' = σ) as ->; [|done].
  unfold stringify in E. repeat case_match; by simplify_eq.
Qed.

Lemma keeps_parse σ0 t : keeps σ0 (parse t) (fresh_word (length σ0)).
Proof.
  intros σ r σ' [Hp Hf] E. unfold parse in E.
  destruct (JSON_parse t) as [v|e]; [|by simplify_eq].
  destruct (alloc σ v) as [σ1 w] eqn:Ea. injection E as <- <-.
  destruct (alloc_spec _ _ _ _ Ea) as (ext & -> & Hw & He).
  pose proof (preserves_length _ _ Hp) as Hlen. split; [split|].
  - eapply preserves_trans; [exact Hp | apply preserves_app].
  - intros l c Hl Hc. apply lookup_app_Some in Hc as [Hc | [Hge Hc]].
    + by eapply Hf.
    + eapply fresh_cell_mono; [exact Hlen|].
      eapply Forall_lookup_1 in He; eauto.
  - intros a [= <-]. by eapply fresh_word_mono.
Qed.

Lemma keeps_parse_stringify σ0 w :
  keeps σ0 (parse_stringify w) (fresh_word (length σ0)).
Proof.
  unfold parse_stringify. eapply keeps_bind; [apply keeps_stringify|].
  intros t _. apply keeps_parse.
Qed.

Lemma keeps_spread σ0 w :
  fresh_word (length σ0) w ->
  keeps σ0 (spread w) (Forall (fresh_word (length σ0))).
Proof.
  intros Hw σ r σ' [Hp Hf] E. unfold spread in E.
  destruct w as [| | | |s|l]; try (by simplify_eq).
  - injection E as <- <-. split; [done|]. intros a [= <-].
    apply Forall_fmap, Forall_true. done.
  - destruct (σ !! l) as [[ws|ps]|] eqn:El; try (by simplify_eq).
    injection E as <- <-. split; [done|]. intros a [= <-].
    apply (Hf l (CArr ws) Hw El).
Qed.

Lemma keeps_push_all σ0 target items :
  length σ0 <= target -> Forall (fresh_word (length σ0)) items ->
  keeps σ0 (push_all target items) (fun _ => True).
Proof.
  intros Ht Hi σ r σ' [Hp Hf] E. unfold push_all in E.
  destruct (σ !! target) as [[ws|ps]|] eqn:El; try (by simplify_eq).
  injection E as <- <-. split; [split|done].
  - by apply preserves_insert.
  - intros l c Hl Hc.
    destruct (decide (l = target)) as [->|Hne].
    + rewrite list_lookup_insert_eq in Hc by (by eapply lookup_lt_Some).
      injection Hc as <-. apply Forall_app. split; [|done].
      apply (Hf target (CArr ws) Ht El).
    + rewrite list_lookup_insert_ne in Hc by done. by eapply Hf.
Qed.

Lemma keeps_copy_into σ0 (b : bool) w target :
  length σ0 <= target ->
  keeps σ0 (if b then copy ← parse_stringify w; items ← spread copy;
                       push_all target items
            else mret () : Heap unit) (fun _ => True).
Proof.
  intros Ht. destruct b; [|by apply keeps_ret].
  eapply keeps_bind; [apply keeps_parse_stringify|]. intros copy Hc.
  eapply keeps_bind; [by apply keeps_spread|]. intros items Hi.
  by apply keeps_push_all.
Qed.

Lemma keeps_mergeDefaultTeams σ0 defaultTeams enable servers :
  keeps σ0 (Store.mergeDefaultTeams defaultTeams enable servers)
    (fresh_word (length σ0)).
Proof.
  unfold Store.mergeDefaultTeams.
  eapply keeps_bind; [apply keeps_new_array|]. intros n Hn.
  eapply keeps_bind; [apply keeps_nonempty|]. intros has _.
  eapply keeps_bind; [by apply keeps_copy_into|]. intros _ _.
  eapply keeps_bind; [by apply keeps_copy_into|]. intros _ _.
  by apply keeps_ret.
Qed.

Lemma reach_fresh σ0 σ w l :
  grown_from σ0 σ -> fresh_word (length σ0) w -> reach σ w l -> length σ0 <= l.
Proof.
  intros [Hp Hf] Hw Hr. induction Hr as [l|l c w l' Hc Hin Hr IH]; [done|].
  apply IH. pose proof (Hf l c Hw Hc) as Hcell.
  unfold fresh_cell in Hcell. rewrite Forall_forall in Hcell. by apply Hcell.
Qed.

Lemma read_preserved fuel : forall σ σ' w v,
  preserves σ σ' -> read fuel σ w = Some v -> read fuel σ' w = Some v.
Proof.
  induction fuel as [|fuel IH]; intros σ σ' w v Hp Hr.
  - by destruct w.
  - destruct w as [| | | | |l]; try done. simpl in *.
    destruct (σ !! l) as [c|] eqn:El; [|done]. rewrite (Hp _ _ El).
    destruct c as [ws|ps].
    + destruct (mapM (read fuel σ) ws) as [vs|] eqn:Em; [|done].
      apply mapM_Some in Em.
      assert (mapM (read fuel σ') ws = Some vs) as ->; [|done].
      apply mapM_Some. eapply Forall2_impl; [exact Em|]. intros; by eapply IH.
    + destruct (mapM (fun kw => pair kw.1 <$> read fuel σ kw.2) ps) as [vs|] eqn:Em;
        [|done].
      apply mapM_Some in Em.
      assert (mapM (fun kw => pair kw.1 <$> read fuel σ' kw.2) ps = Some vs) as ->;
        [|done].
      apply mapM_Some. eapply Forall2_impl; [exact Em|].
      intros [k w] kv. simpl.
      destruct (read fuel σ w) as [x|] eqn:Ex; [|done].
      by rewrite (IH _ _ _ _ Hp Ex).
Qed.

End StoreFacts.

(** ** The store-level function agrees with the value-level one *)

Section StoreAgreement.
Import Store.

Lemma read_fuel_mono f : forall f' σ w v,
  f <= f' -> read f σ w = Some v -> read f' σ w = Some v.
Proof.
  induction f as [|f IH]; intros f' σ w v Hf Hr.
  - destruct w; try done; by destruct f'.
  - destruct w as [| | | | |l]; try (by destruct f').
    destruct f' as [|f']; [lia|]. simpl in *.
    destruct (σ !! l) as [[ws|ps]|]; [| |done].
    + destruct (mapM (read f σ) ws) as [vs|] eqn:Em; [|done].
      apply mapM_Some in Em.
      assert (mapM (read f' σ) ws = Some vs) as ->; [|done].
      apply mapM_Some. eapply Forall2_impl; [exact Em|].
      intros; eapply IH; [|done]. lia.
    + destruct (mapM (fun kw => pair kw.1 <$> read f σ kw.2) ps) as [vs|] eqn:Em;
        [|done].
      apply mapM_Some in Em.
      assert (mapM (fun kw => pair kw.1 <$> read f' σ kw.2) ps = Some vs) as ->;
        [|done].
      apply mapM_Some. eapply Forall2_impl; [exact Em|].
      intros [k w] kv. simpl.
      destruct (read f σ w) as [x|] eqn:Ex; [|done].
      rewrite (IH f' _ _ _ ltac:(lia) Ex). done.
Qed.

Lemma agree_from_app n σ ext σ' : agree_from n (σ ++ ext) σ' -> agree_from n σ σ'.
Proof. intros H l c Hl Hc. apply H; [done|]. by apply lookup_app_l_Some. Qed.

Lemma agree_from_mono n n' σ σ' : n <= n' -> agree_from n σ σ' -> agree_from n' σ σ'.
Proof. intros Hn H l c Hl Hc. apply H; [lia|done]. Qed.

Lemma agree_from_trans n σ1 σ2 σ3 :
  agree_from n σ1 σ2 -> agree_from n σ2 σ3 -> agree_from n σ1 σ3.
Proof. intros H1 H2 l c Hl Hc. eauto. Qed.

Lemma alloc_all_read l : forall σ σ' ws,
  Forall readable l ->
  alloc_all alloc σ l = (σ', ws) ->
  denote_from (length σ) σ' ws l.
Proof.
  induction l as [|x r IH]; intros σ σ' ws Hall Ha; simpl in Ha.
  - injection Ha as <- <-. by exists 0.
  - apply Forall_cons in Hall as [Hx Hr].
    destruct (alloc σ x) as [σ1 w] eqn:E1.
    destruct (alloc_all alloc σ1 r) as [σ2 ws'] eqn:E2.
    injection Ha as <- <-.
    destruct (alloc_spec _ _ _ _ E1) as (ext1 & -> & _ & _).
    destruct (alloc_all_spec r _ _ _
                (Forall_true _ _ (fun v => alloc_spec v)) E2) as (ext2 & -> & _ & _).
    destruct (Hx _ _ _ E1) as [fx Hfx].
    destruct (IH _ _ _ Hr E2) as [fr Hfr].
    exists (fx `max` fr). intros f σ'' Hf Hag. simpl.
    rewrite (Hfx f σ'') by (lia || by eapply agree_from_app).
    simpl. rewrite (Hfr f σ''); [done|lia|].
    eapply agree_from_mono; [|exact Hag]. rewrite length_app. lia.
Qed.

Lemma alloc_props_read ps : forall σ σ' ws,
  Forall (fun kv => readable (snd kv)) ps ->
  alloc_props alloc σ ps = (σ', ws) ->
  exists fuel, forall f σ'', fuel <= f -> agree_from (length σ) σ' σ'' ->
    mapM (fun kw => pair kw.1 <$> read f σ'' kw.2) ws = Some ps.
Proof.
  induction ps as [|[k x] r IH]; intros σ σ' ws Hall Ha; simpl in Ha.
  - injection Ha as <- <-. by exists 0.
  - apply Forall_cons in Hall as [Hx Hr]. simpl in Hx.
    destruct (alloc σ x) as [σ1 w] eqn:E1.
    destruct (alloc_props alloc σ1 r) as [σ2 ws'] eqn:E2.
    injection Ha as <- <-.
    destruct (alloc_spec _ _ _ _ E1) as (ext1 & -> & _ & _).
    destruct (alloc_props_spec r _ _ _
                (Forall_true _ _ (fun kv => alloc_spec (snd kv))) E2)
      as (ext2 & -> & _ & _).
    destruct (Hx _ _ _ E1) as [fx Hfx].
    destruct (IH _ _ _ Hr E2) as [fr Hfr].
    exists (fx `max` fr). intros f σ'' Hf Hag. simpl.
    rewrite (Hfx f σ'') by (lia || by eapply agree_from_app).
    simpl. rewrite (Hfr f σ''); [done|lia|].
    eapply agree_from_mono; [|exact Hag]. rewrite length_app. lia.
Qed.

Lemma alloc_read v : readable v.
Proof.
  induction v as [| | | | |l IH|ps IH] using val_ind; intros σ σ' w Ha;
    simpl in Ha;
    try (injection Ha as <- <-; exists 0; intros [|f] ? ? ?; reflexivity).
  - destruct (alloc_all alloc σ l) as [σ1 ws] eqn:E.
    injection Ha as <- <-.
    destruct (alloc_all_spec l _ _ _
                (Forall_true _ _ (fun v => alloc_spec v)) E) as (ext & -> & _ & _).
    destruct (alloc_all_read _ _ _ _ IH E) as [fuel Hfuel].
    exists (S fuel). intros [|f] σ'' Hf Hag; [lia|]. simpl.
    rewrite (Hag (length (σ ++ ext)) (CArr ws)).
    + rewrite (Hfuel f σ''); [done|lia|]. by eapply agree_from_app.
    + rewrite length_app. lia.
    + by rewrite lookup_app_r, Nat.sub_diag.
  - destruct (alloc_props alloc σ ps) as [σ1 ws] eqn:E.
    injection Ha as <- <-.
    destruct (alloc_props_spec ps _ _ _
                (Forall_true _ _ (fun kv => alloc_spec (snd kv))) E)
      as (ext & -> & _ & _).
    destruct (alloc_props_read _ _ _ _ IH E) as [fuel Hfuel].
    exists (S fuel). intros [|f] σ'' Hf Hag; [lia|]. simpl.
    rewrite (Hag (length (σ ++ ext)) (CObj ws)).
    + rewrite (Hfuel f σ''); [done|lia|]. by eapply agree_from_app.
    + rewrite length_app. lia.
    + by rewrite lookup_app_r, Nat.sub_diag.
Qed.

(** One conditional [push(...JSON.parse(JSON.stringify(w)))] on the array at
    [n], when [w] denotes the array [l] in the store [σ0] of the call. *)
Lemma copy_into_agrees σ0 σ n w l (b : bool) ws0 :
  read (S (length σ0)) σ0 w = Some (Arr l) ->
  preserves σ0 σ ->
  length σ0 <= n ->
  σ !! n = Some (CArr ws0) ->
  exists σ' ws,
    (if b then copy ← parse_stringify w; items ← spread copy; push_all n items
     else mret () : Heap unit) σ = (Normal (), σ') /\
    preserves σ0 σ' /\
    σ' !! n = Some (CArr (ws0 ++ ws)) /\
    agree_from (S n) σ σ' /\
    denote_from (S n) σ' ws (if b then List.map jsonElement l else []).
Proof.
  intros Hr Hp Hge Hn. pose proof (lookup_lt_Some _ _ _ Hn) as Hlt.
  destruct b.
  2:{ exists σ, []. rewrite app_nil_r.
      split; [done|]. split; [done|]. split; [done|].
      split; [by intros k c|]. by exists 0. }
  pose proof (preserves_length _ _ Hp) as Hlen.
  assert (Hrσ : read (S (length σ)) σ w = Some (Arr l)).
  { eapply read_fuel_mono; [|by eapply read_preserved]. lia. }
  unfold parse_stringify, stringify, parse.
  unfold mbind at 1, Heap_bind at 1. unfold mbind at 1, Heap_bind at 1.
  rewrite Hrσ. simpl JSON_stringify. cbv beta iota. simpl data_text.
  change (List.map _ l) with (List.map jsonElement l).
  set (l' := List.map jsonElement l).
  assert (JSON_parse (JsonText (Arr l')) = Normal (Arr l')) as ->.
  { unfold JSON_parse. rewrite jsonValue_Arr. do 2 f_equal. unfold l'.
    rewrite List.map_map. apply List.map_ext. intros; apply jsonElement_idem. }
  simpl alloc.
  destruct (alloc_all alloc σ l') as [σ1 ws] eqn:E.
  destruct (alloc_all_spec l' _ _ _
              (Forall_true _ _ (fun v => alloc_spec v)) E) as (ext & -> & _ & _).
  destruct (alloc_all_read l' _ _ _ (Forall_true _ _ alloc_read) E) as [fuel Hfuel].
  cbv beta iota.
  unfold mbind at 1, Heap_bind at 1. unfold spread.
  rewrite lookup_app_r, Nat.sub_diag by done. simpl.
  unfold push_all.
  rewrite (lookup_app_l_Some _ _ _ _ (lookup_app_l_Some _ _ _ _ Hn)).
  eexists _, ws. split; [reflexivity|].
  assert (Hn' : n < length ((σ ++ ext) ++ [CArr ws])) by (rewrite !length_app; lia).
  split; [|split; [|split]].
  - apply preserves_insert; [|done].
    eapply preserves_trans; [exact Hp|]. rewrite <- app_assoc. apply preserves_app.
  - by rewrite list_lookup_insert_eq.
  - intros k c Hk Hc. rewrite list_lookup_insert_ne by lia.
    rewrite <- app_assoc. by apply lookup_app_l_Some.
  - exists fuel. intros f σ'' Hf Hag. apply Hfuel; [done|].
    intros k c Hk Hc. apply Hag; [lia|].
    rewrite list_lookup_insert_ne by lia. by apply lookup_app_l_Some.
Qed.

Lemma read_array fuel σ w l :
  read fuel σ w = Some (Arr l) ->
  exists k ws, w = WRef k /\ σ !! k = Some (CArr ws) /\ length ws = length l.
Proof.
  destruct fuel as [|fuel]; destruct w as [| | | | |k]; try done.
  simpl. destruct (σ !! k) as [[ws|ps]|] eqn:Ek; [| |done].
  - destruct (mapM (read fuel σ) ws) as [vs|] eqn:Em; [|done].
    intros [= <-]. apply mapM_Some, Forall2_length in Em. eauto.
  - by destruct (mapM _ ps).
Qed.

Lemma mergeDefaultTeams_store_result σ vendor servers dts ss enable :
  read (S (length σ)) σ vendor = Some (Arr dts) ->
  read (S (length σ)) σ servers = Some (Arr ss) ->
  exists result σ' fuel,
    Store.mergeDefaultTeams vendor enable servers σ = (Normal result, σ') /\
    read fuel σ' result =
      Some (Arr (List.map jsonElement dts ++
                 if enable then List.map jsonElement ss else [])).
Proof.
  intros Hd Hs.
  destruct (read_array _ _ _ _ Hd) as (ld & wsd & -> & Hld & Hlen).
  set (n := length σ). set (σ1 := σ ++ [CArr []]).
  assert (Hp1 : preserves σ σ1) by apply preserves_app.
  assert (Hn1 : σ1 !! n = Some (CArr [])).
  { unfold σ1, n. by rewrite lookup_app_r, Nat.sub_diag. }
  destruct (copy_into_agrees σ σ1 n (WRef ld) dts
              (bool_decide (0 < length wsd)) [] Hd Hp1 (Nat.le_refl _) Hn1)
    as (σ2 & ws1 & Hrun1 & Hp2 & Hn2 & Hag2 & Hden1).
  destruct (copy_into_agrees σ σ2 n servers ss enable ([] ++ ws1) Hs Hp2
              (Nat.le_refl _) Hn2)
    as (σ3 & ws2 & Hrun2 & Hp3 & Hn3 & Hag3 & Hden2).
  assert (Hl1 : (if bool_decide (0 < length wsd)
                 then List.map jsonElement dts else []) = List.map jsonElement dts).
  { case_bool_decide; [done|]. destruct dts; [done|]. simpl in Hlen. lia. }
  rewrite Hl1 in Hden1.
  destruct Hden1 as [f1 Hf1]. destruct Hden2 as [f2 Hf2].
  exists (WRef n), σ3, (S (f1 `max` f2)).
  split.
  - unfold Store.mergeDefaultTeams.
    unfold mbind at 1, Heap_bind at 1. unfold new_array at 1. fold σ1. fold n.
    unfold mbind at 1, Heap_bind at 1. unfold nonempty at 1.
    rewrite (Hp1 _ _ Hld).
    unfold mbind at 1, Heap_bind at 1. rewrite Hrun1.
    unfold mbind at 1, Heap_bind at 1. rewrite Hrun2. done.
  - simpl. rewrite Hn3. simpl.
    assert (mapM (read (f1 `max` f2) σ3) (ws1 ++ ws2)
            = Some (List.map jsonElement dts ++
                    (if enable then List.map jsonElement ss else []))) as ->; [|done].
    apply mapM_Some, Forall2_app; apply mapM_Some.
    + apply Hf1; [lia|done].
    + apply Hf2; [lia|]. by intros k c.
Qed.
End StoreAgreement.

(** The store-level function computes what the value-level function does:
    when the two arguments denote arrays, the call returns, and the list it
    returns denotes the list [mergeDefaultTeams] gives on the values. *)
Lemma mergeDefaultTeams_store_agrees σ vendor servers dts ss enable :
  Store.read (S (length σ)) σ vendor = Some (Arr dts) ->
  Store.read (S (length σ)) σ servers = Some (Arr ss) ->
  exists result σ' merged fuel,
    Store.mergeDefaultTeams vendor enable servers σ = (Normal result, σ') /\
    mergeDefaultTeams {| defaultTeams := dts; enableServerManagement := enable |} ss
      = Normal merged /\
    Store.read fuel σ' result = Some (Arr merged).
Proof.
  intros Hd Hs.
  destruct (mergeDefaultTeams_store_result σ vendor servers dts ss enable Hd Hs)
    as (result & σ' & fuel & Hrun & Hread).
  eexists result, σ', _, fuel. split; [done|].
  split; [apply mergeDefaultTeams_eq|done].
Qed.

(** ** [mergeDefaultTeams] copies *)

(** C10.  [mergeDefaultTeams] leaves every object that existed before the
    call as it was, the user's list, the vendor list and their entries
    included; every object that can be reached from the list it returns was
    created by the call, so the result shares no entry with either input;
    a later change to any object of the result leaves what every word
    denoted before the call unchanged; and the entries are deep copies: when
    the two inputs denote arrays, the list returned denotes the list the
    function gives on those values. *)
Theorem mergeDefaultTeams_shares_nothing vendor enable servers σ r σ' :
  Store.mergeDefaultTeams vendor enable servers σ = (r, σ') ->
  (forall l c, σ !! l = Some c -> σ' !! l = Some c) /\
  (forall result, r = Normal result ->
     (forall l, Store.reach σ' result l -> σ !! l = None) /\
     (forall l c fuel w v,
        Store.reach σ' result l -> Store.read fuel σ w = Some v ->
        Store.read fuel (<[l := c]> σ') w = Some v)) /\
  (forall dts ss,
     Store.read (S (length σ)) σ vendor = Some (Arr dts) ->
     Store.read (S (length σ)) σ servers = Some (Arr ss) ->
     exists result merged fuel,
       r = Normal result /\
       mergeDefaultTeams
         {| defaultTeams := dts; enableServerManagement := enable |} ss
         = Normal merged /\
       Store.read fuel σ' result = Some (Arr merged)).
Proof.
  intros E.
  destruct (keeps_mergeDefaultTeams σ vendor enable servers σ r σ'
              (grown_from_refl σ) E) as [Hg Hres].
  split; [apply Hg|]. split.
  - intros result ->. specialize (Hres _ eq_refl).
    assert (Hl : forall l, Store.reach σ' result l -> length σ <= l)
      by (intros l; by eapply reach_fresh).
    split.
    + intros l Hr. apply lookup_ge_None. auto.
    + intros l c fuel w v Hr. apply read_preserved.
      apply preserves_insert; [apply Hg | auto].
  - intros dts ss Hd Hs.
    destruct (mergeDefaultTeams_store_agrees σ vendor servers dts ss enable Hd Hs)
      as (result & σ'' & merged & fuel & Hrun & Hm & Hread).
    rewrite E in Hrun. injection Hrun as -> ->.
    by exists result, merged, fuel.
Qed.

Lemma mergeDefaultTeams_shares_nothing_witness :
  (forall l c,
     team_store !! l = Some c ->
     (Store.mergeDefaultTeams (Store.WRef 1) true (Store.WRef 3) team_store).2 !! l
       = Some c) /\
  (forall result,
     (Store.mergeDefaultTeams (Store.WRef 1) true (Store.WRef 3) team_store).1
       = Normal result ->
     (forall l,
        Store.reach
          (Store.mergeDefaultTeams (Store.WRef 1) true (Store.WRef 3) team_store).2
          result l ->
        team_store !! l = None) /\
     (forall l c fuel w v,
        Store.reach
          (Store.mergeDefaultTeams (Store.WRef 1) true (Store.WRef 3) team_store).2
          result l ->
        Store.read fuel team_store w = Some v ->
        Store.read fuel
          (<[l := c]>
             (Store.mergeDefaultTeams (Store.WRef 1) true (Store.WRef 3)
                team_store).2)
          w = Some v)) /\
  (forall dts ss,
     Store.read 5 team_store (Store.WRef 1) = Some (Arr dts) ->
     Store.read 5 team_store (Store.WRef 3) = Some (Arr ss) ->
     exists result merged fuel,
       (Store.mergeDefaultTeams (Store.WRef 1) true (Store.WRef 3) team_store).1
         = Normal result /\
       mergeDefaultTeams
         {| defaultTeams := dts; enableServerManagement := true |} ss
         = Normal merged /\
       Store.read fuel
         (Store.mergeDefaultTeams (Store.WRef 1) true (Store.WRef 3) team_store).2
         result = Some (Arr merged)).
Proof.
  apply (mergeDefaultTeams_shares_nothing (Store.WRef 1) true (Store.WRef 3)
           team_store). reflexivity.
Defined.

(** The call of the witness returns: the new list is at location 4 and its
    two entries are the new objects at 5 and 7; the store denotes the vendor
    team and the user's team at the two inputs. *)
Lemma mergeDefaultTeams_on_team_store :
  Store.mergeDefaultTeams (Store.WRef 1) true (Store.WRef 3) team_store =
    (Normal (Store.WRef 4),
     team_store ++
       [Store.CArr [Store.WRef 5; Store.WRef 7];
        Store.CObj [("url", Store.WStr "a")];
        Store.CArr [Store.WRef 5];
        Store.CObj [("url", Store.WStr "a"); ("name", Store.WStr "mine")];
        Store.CArr [Store.WRef 7]]) /\
  Store.read 5 team_store (Store.WRef 1) = Some (Arr (defaultTeams vendor_a)) /\
  Store.read 5 team_store (Store.WRef 3) = Some (Arr user_a).
Proof. repeat split. Qed.

(** * Further properties *)

Import MoreExamples.

(** ** [merge] *)

Lemma assoc_foldl_assign l : forall acc k,
  assoc k (foldl (fun acc kv => assign (fst kv) (snd kv) acc) acc l) =
    match lookup_last k l with
    | Some v => Some v
    | None => assoc k acc
    end.
Proof.
  induction l as [|[k' v] r IH]; intros acc k; [done|].
  simpl. rewrite IH. destruct (lookup_last k r); [done|].
  case_bool_decide as E.
  - subst. apply assoc_assign.
  - by apply assoc_assign_ne.
Qed.

Lemma assoc_None_keys k ps : assoc k ps = None <-> k ∉ keys ps.
Proof.
  induction ps as [|[k' v] r IH]; simpl.
  - split; [intros _ H; inversion H | done].
  - change (keys ((k', v) :: r)) with (k' :: keys r).
    rewrite not_elem_of_cons. case_bool_decide as E.
    + subst. split; [done|]. by intros [H _].
    + rewrite IH. split; [by split|]. by intros [_ H].
Qed.

Lemma lookup_last_distinct k ps : NoDup (keys ps) -> lookup_last k ps = assoc k ps.
Proof.
  induction ps as [|[k' v] r IH]; [done|].
  simpl. intros [Hk Hr]%NoDup_cons. rewrite IH by done.
  case_bool_decide as E.
  - subst. by apply assoc_None_keys in Hk as ->.
  - by destruct (assoc k r).
Qed.

Lemma lookup_last_app k l1 l2 :
  lookup_last k (l1 ++ l2) =
    match lookup_last k l2 with
    | Some v => Some v
    | None => lookup_last k l1
    end.
Proof.
  induction l1 as [|[k' v] r IH]; simpl.
  - by destruct (lookup_last k l2).
  - rewrite IH. by destruct (lookup_last k l2).
Qed.

Lemma keys_assign k v ps :
  keys (assign k v ps) = if bool_decide (k ∈ keys ps) then keys ps else keys ps ++ [k].
Proof.
  induction ps as [|[k' y] r IH]; [done|].
  change (keys ((k', y) :: r)) with (k' :: keys r). simpl assign.
  destruct (bool_decide (k' = k)) eqn:E.
  - apply bool_decide_eq_true_1 in E as ->.
    rewrite bool_decide_eq_true_2 by apply list_elem_of_here. done.
  - apply bool_decide_eq_false_1 in E.
    change (keys ((k', y) :: assign k v r)) with (k' :: keys (assign k v r)).
    rewrite IH.
    destruct (bool_decide (k ∈ keys r)) eqn:Hin.
    + apply bool_decide_eq_true_1 in Hin.
      rewrite bool_decide_eq_true_2 by (by apply list_elem_of_further). done.
    + apply bool_decide_eq_false_1 in Hin.
      rewrite bool_decide_eq_false_2; [done|].
      rewrite elem_of_cons. intros [->|H]; done.
Qed.

Lemma distinct_assign k v ps : NoDup (keys ps) -> NoDup (keys (assign k v ps)).
Proof.
  intros H. rewrite keys_assign. case_bool_decide as E; [done|].
  apply NoDup_app. split; [done|]. split; [|apply NoDup_singleton].
  intros x Hx ->%list_elem_of_singleton. done.
Qed.

Lemma distinct_foldl_assign l : forall acc,
  NoDup (keys acc) ->
  NoDup (keys (foldl (fun acc kv => assign (fst kv) (snd kv) acc) acc l)).
Proof.
  induction l as [|kv r IH]; intros acc H; [done|].
  simpl. by apply IH, distinct_assign.
Qed.

(** What a property of [merge(base, target)] is, for two objects. *)
Lemma get_merge b t k :
  NoDup (keys b) -> NoDup (keys t) ->
  get (merge (Obj b) (Obj t)) k =
    Normal (match assoc k t with
            | Some v => v
            | None => default Undefined (assoc k b)
            end).
Proof.
  intros Hb Ht. unfold merge. simpl. rewrite assoc_foldl_assign.
  rewrite lookup_last_app, !lookup_last_distinct by done.
  destruct (assoc k t); [done|]. by destruct (assoc k b).
Qed.

(** X1.  [merge(base, target)] of two objects whose property names are
    distinct is an object with distinct property names: a property of
    [target] has the value [target] gives it, every other property has what
    [base] gives it. *)
Theorem merge_target_wins b t :
  NoDup (keys b) -> NoDup (keys t) ->
  exists ps,
    merge (Obj b) (Obj t) = Obj ps /\
    NoDup (keys ps) /\
    (forall k v, assoc k t = Some v -> assoc k ps = Some v) /\
    (forall k, assoc k t = None -> assoc k ps = assoc k b).
Proof.
  intros Hb Ht.
  exists (foldl (fun acc kv => assign (fst kv) (snd kv) acc) [] (b ++ t)).
  split; [reflexivity|]. split.
  { apply distinct_foldl_assign. constructor. }
  split.
  - intros k v Hk. rewrite assoc_foldl_assign, lookup_last_app.
    rewrite !lookup_last_distinct by done. by rewrite Hk.
  - intros k Hk. rewrite assoc_foldl_assign, lookup_last_app.
    rewrite !lookup_last_distinct by done. rewrite Hk. by destruct (assoc k b).
Qed.

Lemma merge_target_wins_witness :
  exists ps,
    merge (Obj prefs_seed_team) old_doc = Obj ps /\
    NoDup (keys ps) /\
    (forall k v, assoc k [("version", Num 1); ("teams", Arr [mine])] = Some v ->
                 assoc k ps = Some v) /\
    (forall k, assoc k [("version", Num 1); ("teams", Arr [mine])] = None ->
               assoc k ps = assoc k prefs_seed_team).
Proof.
  apply (merge_target_wins prefs_seed_team
           [("version", Num 1); ("teams", Arr [mine])]);
    apply (bool_decide_unpack _); vm_compute; exact I.
Defined.

(** ** Statements that act on the disk only *)

Lemma with_disk_same w : with_disk (fs w) [] w = w.
Proof. destruct w. unfold with_disk. simpl. by rewrite app_nil_r. Qed.

Lemma with_disk_twice d1 l1 d2 l2 w :
  with_disk d2 l2 (with_disk d1 l1 w) = with_disk d2 (l1 ++ l2) w.
Proof. unfold with_disk. simpl. by rewrite app_assoc. Qed.

Lemma da_ret {A} (a : A) : disk_action (mret a : JS A).
Proof.
  intros d0. exists (Normal a), d0, []. intros w <-. by rewrite with_disk_same.
Qed.

Lemma da_lift {A} (c : Completion A) : disk_action (lift c).
Proof.
  intros d0. exists c, d0, []. intros w <-. by rewrite with_disk_same.
Qed.

Lemma da_throw {A} e : disk_action (throw (A := A) e).
Proof.
  intros d0. exists (Throw e), d0, []. intros w <-. by rewrite with_disk_same.
Qed.

Lemma da_on_fs {A} (op : FS -> Completion A * FS) : disk_action (on_fs op).
Proof.
  intros d0. exists (op d0).1, (op d0).2, []. intros w <-. unfold on_fs.
  destruct (op (fs w)) as [c d]. simpl. f_equal.
  unfold with_fs, with_disk. by rewrite app_nil_r.
Qed.

Lemma da_path_arg p : disk_action (path_arg p).
Proof. destruct p; [apply da_ret | apply da_throw]. Qed.

Lemma da_console_log e : disk_action (console_log e).
Proof. intros d0. exists (Normal ()), d0, [e]. by intros w <-. Qed.

Lemma da_if {A} (b : bool) (m1 m2 : JS A) :
  disk_action m1 -> disk_action m2 -> disk_action (if b then m1 else m2).
Proof. by destruct b. Qed.

Lemma da_bind {A B} (m : JS A) (f : A -> JS B) :
  disk_action m -> (forall a, disk_action (f a)) -> disk_action (m ≫= f).
Proof.
  intros Hm Hf d0. destruct (Hm d0) as (c & d & logs & Hrun).
  destruct c as [a|e].
  - destruct (Hf a d) as (c' & d' & logs' & Hrun').
    exists c', d', (logs ++ logs'). intros w Hw.
    rewrite bind_unfold, (Hrun w Hw), (Hrun' (with_disk d logs w)) by done.
    by rewrite with_disk_twice.
  - exists (Throw e), d, logs. intros w Hw. by rewrite bind_unfold, (Hrun w Hw).
Qed.

Lemma da_try {A} (m : JS A) (h : exn -> JS A) :
  disk_action m -> (forall e, disk_action (h e)) -> disk_action (try_ m h).
Proof.
  intros Hm Hh d0. destruct (Hm d0) as (c & d & logs & Hrun).
  destruct c as [a|e].
  - exists (Normal a), d, logs. intros w Hw. unfold try_. by rewrite (Hrun w Hw).
  - destruct (Hh e d) as (c' & d' & logs' & Hrun').
    exists c', d', (logs ++ logs'). intros w Hw. unfold try_.
    rewrite (Hrun w Hw), (Hrun' (with_disk d logs w)) by done.
    by rewrite with_disk_twice.
Qed.

Create HintDb disk.
#[local] Hint Resolve da_ret da_lift da_throw da_on_fs da_path_arg
  da_console_log : disk.

Ltac disk :=
  repeat first
    [ apply da_bind; [|intros ?]
    | apply da_if
    | apply da_try; [|intros ?]
    | solve [auto with disk] ].

Lemma da_readFileSync dp cf : disk_action (readFileSync dp cf).
Proof. unfold readFileSync. disk. Qed.

Lemma da_writeFileSync dp cf config : disk_action (writeFileSync dp cf config).
Proof. unfold writeFileSync. disk. Qed.

#[local] Hint Resolve da_readFileSync da_writeFileSync : disk.

Lemma da_load_config dp up cf : disk_action (load_config dp up cf).
Proof. unfold load_config, load_or_upgrade, load_defaults. disk. Qed.

(** A disk action leaves the rest of the world alone. *)
Lemma disk_action_frame {A} (m : JS A) w :
  disk_action m ->
  registry (m w).2 = registry w /\ platform (m w).2 = platform w /\
  userData (m w).2 = userData w /\ configFile (m w).2 = configFile w /\
  hardwareAccelerationDisabled (m w).2 = hardwareAccelerationDisabled w /\
  scheduled (m w).2 = scheduled w /\
  exists logs, console (m w).2 = console w ++ logs.
Proof.
  intros Hm. destruct (Hm (fs w)) as (c & d & logs & Hrun).
  rewrite (Hrun w eq_refl). simpl. repeat split. by exists logs.
Qed.

(** ** [readFileSync], [read] and [save] *)

Lemma fs_readFileSync_disk d p :
  files (fs_readFileSync d p).2 = files d /\ dirs (fs_readFileSync d p).2 = dirs d.
Proof.
  unfold fs_readFileSync, next_outcome.
  destruct (script d) as [|o rest]; simpl.
  - by destruct (files d !! p).
  - destruct o; simpl; try done. by destruct (files d !! p).
Qed.

(** [readFileSync] changes the disk at most by using up an outcome. *)
Lemma readFileSync_world dp cf w :
  exists c d,
    readFileSync dp cf w = (c, with_fs d w) /\
    files d = files (fs w) /\ dirs d = dirs (fs w).
Proof.
  unfold readFileSync. js_unfold.
  destruct cf as [p|]; simpl.
  - pose proof (fs_readFileSync_disk (fs w) p) as [Hf Hd].
    destruct (fs_readFileSync (fs w) p) as [[t|e] d]; simpl in *; [|by eauto].
    destruct (JSON_parse t) as [config|e]; simpl; [|by eauto].
    destruct (get config "version") as [v|e]; simpl; [|by eauto].
    destruct (strictEq v (currentVersion dp)); simpl; [|by eauto].
    destruct (loadDefault dp); simpl; by eauto.
  - exists (Throw (TypeError "path")), (fs w). split; [|done].
    f_equal. by destruct w as [[] ? ? ? ? ? ? ?].
Qed.

(** X2.  [readFileSync] only reads: whatever the path, the disk and the
    outcome, the files and directories, the module's [configFile], the
    console and the queue of writes are afterwards what they were. *)
Theorem readFileSync_reads_only dp cf w :
  files (fs (readFileSync dp cf w).2) = files (fs w) /\
  dirs (fs (readFileSync dp cf w).2) = dirs (fs w) /\
  configFile (readFileSync dp cf w).2 = configFile w /\
  console (readFileSync dp cf w).2 = console w /\
  scheduled (readFileSync dp cf w).2 = scheduled w.
Proof.
  destruct (readFileSync_world dp cf w) as (c & d & -> & Hf & Hd). done.
Qed.

(** X3.  The errors of [readFileSync] on a disk that lets the read run:
    a path with no file throws the system error (EISDIR for a directory,
    ENOTDIR when a component on the way to it is a regular file, ENOENT
    otherwise), a file whose content does not parse throws the error of
    [JSON.parse], and an undefined path throws a TypeError. *)
Theorem readFileSync_errors dp p w :
  script (fs w) = [] ->
  (files (fs w) !! p = None ->
     (readFileSync dp (Some p) w).1 =
       Throw (SystemError (if is_dir (fs w) p then "EISDIR"
                           else if below_file (fs w) p then "ENOTDIR"
                           else "ENOENT"))) /\
  (forall t e,
     files (fs w) !! p = Some t -> JSON_parse t = Throw e ->
     (readFileSync dp (Some p) w).1 = Throw e) /\
  (readFileSync dp None w).1 = Throw (TypeError "path").
Proof.
  intros Hs. unfold readFileSync, fs_readFileSync, next_outcome. js_unfold.
  rewrite Hs. simpl. split; [|split; [|done]].
  - intros Hf. by rewrite Hf.
  - intros t e Hf Hp. rewrite Hf. simpl. by rewrite Hp.
Qed.

Lemma readFileSync_errors_witness :
  (readFileSync prefs_v1 (Some config_path) (configured first_run)).1 =
     Throw (SystemError "ENOENT") /\
  (readFileSync prefs_v1 (Some config_path) (configured data_dir_is_file)).1 =
     Throw (SystemError "ENOTDIR") /\
  (readFileSync prefs_v1 (Some config_path) (configured corrupt_world)).1 =
     Throw SyntaxError.
Proof.
  split; [|split].
  - apply (proj1 (readFileSync_errors prefs_v1 config_path (configured first_run)
                    eq_refl)). reflexivity.
  - apply (proj1 (readFileSync_errors prefs_v1 config_path
                    (configured data_dir_is_file) eq_refl)). reflexivity.
  - apply (proj1 (proj2 (readFileSync_errors prefs_v1 config_path
                           (configured corrupt_world) eq_refl))
             (PlainText "{oops") SyntaxError); reflexivity.
Defined.

Lemma writeFileSync_Normal_guard dp cf config w w1 :
  writeFileSync dp cf config w = (Normal (), w1) ->
  exists v, get config "version" = Normal v /\ strictEq v (currentVersion dp) = true.
Proof.
  unfold writeFileSync. intros H.
  apply bind_Normal_inv in H as (v & w0 & Hv & H).
  apply lift_Normal_inv in Hv as [Hv ->].
  destruct (strictEq v (currentVersion dp)) eqn:E; [eauto|done].
Qed.

Lemma isJSON_stringify config :
  isJSON config = true -> JSON_stringify config = Some (JsonText config).
Proof.
  intros H. destruct config; try done; unfold JSON_stringify;
    by rewrite isJSON_jsonValue.
Qed.

Lemma isJSON_parse config :
  isJSON config = true -> JSON_parse (JsonText config) = Normal config.
Proof.
  intros H. destruct config; try done; unfold JSON_parse;
    by rewrite isJSON_jsonValue.
Qed.

(** Reading a file that holds the rendering of [config], a document at the
    current version. *)
Lemma readFileSync_current dp p config v w :
  script (fs w) = [] ->
  files (fs w) !! p = Some (JsonText config) ->
  isJSON config = true ->
  get config "version" = Normal v -> strictEq v (currentVersion dp) = true ->
  readFileSync dp (Some p) w = (Normal (merge (default_document dp) config), w).
Proof.
  intros Hs Hf Hj Hv He.
  unfold readFileSync, fs_readFileSync, next_outcome.
  rewrite loadDefault_eq. js_unfold.
  rewrite Hs. cbn -[JSON_parse merge]. rewrite Hf.
  rewrite (isJSON_parse _ Hj). cbn -[get merge].
  rewrite Hv. cbn -[strictEq merge].
  rewrite He. cbn -[merge]. f_equal.
  by destruct w as [[] ? ? ? ? ? ? ?].
Qed.

(** X4.  Round trip: when [save(config)] has returned for a JSON document,
    the next [read()] returns [merge(defaults, config)], the saved document
    over the default one, and leaves the world as it is. *)
Theorem save_then_read dp config w w1 p :
  configFile w = Some p ->
  isJSON config = true ->
  Settings.save dp config w = (Normal (), w1) ->
  script (fs w1) = [] ->
  Settings.read dp w1 = (Normal (merge (default_document dp) config), w1).
Proof.
  intros Hp Hj Hsave Hs. unfold Settings.save in Hsave. rewrite Hp in Hsave.
  destruct (writeFileSync_Normal_guard _ _ _ _ _ Hsave) as (v & Hv & He).
  pose proof (writeFileSync_Normal_file _ _ _ _ _ Hsave) as Hf.
  rewrite (isJSON_stringify _ Hj) in Hf. simpl in Hf.
  pose proof (disk_action_frame _ w (da_writeFileSync dp (Some p) config))
    as (_ & _ & _ & Hcf & _).
  rewrite Hsave in Hcf. simpl in Hcf.
  unfold Settings.read. rewrite Hcf, Hp.
  by eapply readFileSync_current.
Qed.

Lemma save_then_read_witness :
  Settings.read prefs_v1 (Settings.save prefs_v1 new_doc current_world).2 =
    (Normal (merge (default_document prefs_v1) new_doc),
     (Settings.save prefs_v1 new_doc current_world).2).
Proof.
  apply (save_then_read prefs_v1 new_doc current_world _ config_path);
    reflexivity.
Defined.

Lemma path_dirname_ne (p : path) : p <> [] -> path_dirname p <> p.
Proof.
  intros Hp E. apply (f_equal (@length string)) in E.
  destruct (exists_last Hp) as (q & a & ->).
  unfold path_dirname in E. rewrite removelast_last, length_app in E.
  simpl in E. lia.
Qed.

Lemma writeFileSync_new_directory dp config v w p :
  script (fs w) = [] ->
  get config "version" = Normal v ->
  strictEq v (currentVersion dp) = true ->
  fs_existsSync (fs w) (path_dirname p) = false ->
  is_dir (fs w) p = false ->
  writeFileSync dp (Some p) config w =
    if is_dir (fs w) (path_dirname (path_dirname p)) then
      (Normal (),
       with_fs {| dirs := {[path_dirname p]} ∪ dirs (fs w);
                  files := <[p := data_text (JSON_stringify config)]> (files (fs w));
                  script := [] |} w)
    else (Throw (SystemError (unresolved (fs w) (path_dirname p))), w).
Proof.
  intros Hs Hv He Hex Hnd.
  unfold writeFileSync.
  rewrite bind_unfold. unfold lift at 1. rewrite Hv, He. cbn [negb].
  rewrite bind_unfold. cbn [path_arg mret JS_ret].
  rewrite bind_unfold. unfold on_fs at 1. rewrite Hex. cbn [negb].
  rewrite bind_unfold. unfold on_fs at 1, fs_mkdirSync, next_outcome.
  cbn [with_fs fs]. rewrite Hs, Hex.
  destruct (is_dir (fs w) (path_dirname (path_dirname p))) eqn:Hpar; cbn [negb].
  - unfold on_fs, fs_writeFileSync, next_outcome. cbn [with_fs fs script].
    rewrite Hs.
    assert (Hp0 : p <> []).
    { intros ->. unfold fs_existsSync, is_dir, path_dirname in Hex.
      by rewrite bool_decide_eq_true_2 in Hex. }
    assert (H1 : is_dir {| dirs := {[path_dirname p]} ∪ dirs (fs w);
                           files := files (fs w); script := [] |} p = false).
    { unfold is_dir in *. cbn [dirs].
      apply orb_false_iff in Hnd as [H0 Hin]. rewrite H0. cbn [orb].
      apply bool_decide_eq_false in Hin. apply bool_decide_eq_false.
      rewrite elem_of_union, elem_of_singleton.
      intros [E|E]; [|done]. by apply (path_dirname_ne p). }
    assert (H2 : is_dir {| dirs := {[path_dirname p]} ∪ dirs (fs w);
                           files := files (fs w); script := [] |}
                   (path_dirname p) = true).
    { unfold is_dir. cbn [dirs]. apply orb_true_iff. right.
      apply bool_decide_eq_true. set_solver. }
    rewrite H1, H2. reflexivity.
  - f_equal. by destruct w as [[] ? ? ? ? ? ? ?].
Qed.

(** X5.  [save] creates at most one directory.  When the directory of the
    configuration file is missing and the guard passes: if its parent is
    there, [save] returns, that one directory has been added and the file
    holds the document; if its parent is not there either, [save] throws
    ENOENT (ENOTDIR when a component on the way is a regular file) and
    nothing has changed. *)
Theorem save_creates_one_directory dp config v w p :
  configFile w = Some p ->
  script (fs w) = [] ->
  get config "version" = Normal v ->
  strictEq v (currentVersion dp) = true ->
  fs_existsSync (fs w) (path_dirname p) = false ->
  is_dir (fs w) p = false ->
  if is_dir (fs w) (path_dirname (path_dirname p)) then
    (Settings.save dp config w).1 = Normal () /\
    dirs (fs (Settings.save dp config w).2) = {[path_dirname p]} ∪ dirs (fs w) /\
    files (fs (Settings.save dp config w).2) =
      <[p := data_text (JSON_stringify config)]> (files (fs w))
  else Settings.save dp config w =
         (Throw (SystemError (if below_file (fs w) (path_dirname p)
                              then "ENOTDIR" else "ENOENT")), w).
Proof.
  intros Hp Hs Hv He Hex Hnd.
  unfold Settings.save. rewrite Hp.
  rewrite (writeFileSync_new_directory dp config v w p Hs Hv He Hex Hnd).
  by destruct (is_dir (fs w) (path_dirname (path_dirname p))).
Qed.

Lemma save_creates_one_directory_witness :
  ((Settings.save prefs_v1 new_doc no_data_dir).1 = Normal () /\
   dirs (fs (Settings.save prefs_v1 new_doc no_data_dir).2) =
     {[data_dir]} ∪ dirs (fs no_data_dir) /\
   files (fs (Settings.save prefs_v1 new_doc no_data_dir).2) =
      <[config_path := data_text (JSON_stringify new_doc)]> (files (fs no_data_dir))) /\
  Settings.save prefs_v1 new_doc no_home =
    (Throw (SystemError "ENOENT"), no_home) /\
  Settings.save prefs_v1 new_doc home_is_file =
    (Throw (SystemError "ENOTDIR"), home_is_file).
Proof.
  split; [|split].
  - apply (save_creates_one_directory prefs_v1 new_doc (Num 1) no_data_dir
             config_path); reflexivity.
  - apply (save_creates_one_directory prefs_v1 new_doc (Num 1) no_home
             config_path); reflexivity.
  - apply (save_creates_one_directory prefs_v1 new_doc (Num 1) home_is_file
             config_path); reflexivity.
Defined.

(** ** [init] *)

(** X6.  Whatever [init] does and whether it returns or throws, the
    module's [configFile] is afterwards [userData + '/config.json'], the user
    data path is unchanged, no asynchronous write has been queued and the
    console has only been added to. *)
Theorem init_frame dp up w :
  configFile (Settings.init dp up w).2 = Some (userData w ++ ["config.json"]) /\
  userData (Settings.init dp up w).2 = userData w /\
  scheduled (Settings.init dp up w).2 = scheduled w /\
  exists logs, console (Settings.init dp up w).2 = console w ++ logs.
Proof.
  rewrite init_eq.
  pose proof (disk_action_frame _ (configured w)
                (da_load_config dp up (Some (config_json w))))
    as (_ & _ & Hu & Hcf & _ & Hsch & logs & Hlog).
  destruct (load_config _ _ _ _) as [[config|e] w1]; simpl in *.
  - destruct (get config "enableHardwareAcceleration") as [a|e]; simpl.
    + destruct (strictEq a (Bool false)); simpl; eauto.
    + eauto.
  - eauto.
Qed.

Lemma strictEq_false_iff a : strictEq a (Bool false) = true <-> a = Bool false.
Proof.
  destruct a as [| |[]| | | |]; simpl; split; try done.
Qed.

(** X7.  With hardware acceleration still on, it is off after [init]
    exactly when [init] returns a document whose [enableHardwareAcceleration]
    is [false] itself: an absent, [null] or [0] setting does not switch it
    off, and neither does an [init] that throws. *)
Theorem init_hardware_acceleration dp up w :
  hardwareAccelerationDisabled w = false ->
  hardwareAccelerationDisabled (Settings.init dp up w).2 = true <->
  exists config,
    (Settings.init dp up w).1 = Normal config /\
    get config "enableHardwareAcceleration" = Normal (Bool false).
Proof.
  intros Hw. rewrite init_eq.
  pose proof (disk_action_frame _ (configured w)
                (da_load_config dp up (Some (config_json w))))
    as (_ & _ & _ & _ & Hacc & _).
  destruct (load_config _ _ _ _) as [[config|e] w1]; simpl in *.
  - destruct (get config "enableHardwareAcceleration") as [a|e] eqn:Ha; simpl.
    + destruct (strictEq a (Bool false)) eqn:E; simpl.
      * apply strictEq_false_iff in E as ->. split; [eauto|done].
      * split.
        -- rewrite Hacc, Hw. done.
        -- intros (c & [= <-] & Hc). rewrite Ha in Hc. injection Hc as ->.
           done.
    + split; [by rewrite Hacc, Hw|]. by intros (c & ? & _).
  - split; [by rewrite Hacc, Hw|]. by intros (c & ? & _).
Qed.

Lemma init_hardware_acceleration_witness :
  hardwareAccelerationDisabled
    (Settings.init prefs_no_acceleration keep first_run).2 = true <->
  exists config,
    (Settings.init prefs_no_acceleration keep first_run).1 = Normal config /\
    get config "enableHardwareAcceleration" = Normal (Bool false).
Proof.
  apply (init_hardware_acceleration prefs_no_acceleration keep first_run).
  reflexivity.
Defined.

(** The [catch] block when there is nothing to seed. *)
Lemma load_defaults_no_seed dp cf e w ts dt :
  get (default_document dp) "teams" = Normal (Arr ts) ->
  get (default_document dp) "defaultTeam" = Normal dt ->
  ts <> [] \/ truthy dt = false ->
  load_defaults dp cf e w = (Normal (default_document dp), (console_log e w).2).
Proof.
  intros Ht Hd Hno. unfold load_defaults. rewrite loadDefault_eq.
  fold (default_document dp).
  rewrite bind_unfold.
  change (console_log e w) with (Normal (), (console_log e w).2).
  generalize (console_log e w).2. intros w1. cbv iota.
  rewrite bind_unfold. unfold lift at 1.
  rewrite bind_unfold. unfold lift at 1. rewrite Ht.
  rewrite bind_unfold. unfold lift at 1. simpl get.
  destruct ts as [|t ts].
  - destruct Hno as [?|Hno]; [done|].
    simpl in Hd. injection Hd as Hd. rewrite Hd.
    rewrite bind_unfold.
    assert (E : truthy (Num (Z.of_nat (length (@nil val)))) = false)
      by reflexivity.
    rewrite E. cbn [negb]. unfold lift at 1. cbv beta iota. by rewrite Hno.
  - reflexivity.
Qed.

(** X8.  When reading the configuration file fails (no file, unreadable,
    not JSON) and the defaults have a team or no [defaultTeam], [init] does
    not throw: it returns the default document, logs the error it caught,
    and leaves files and directories as they were, the unreadable file
    included. *)
Theorem init_falls_back_to_defaults dp up w e w0 ts dt :
  readFileSync dp (Some (config_json w)) (configured w) = (Throw e, w0) ->
  get (default_document dp) "teams" = Normal (Arr ts) ->
  get (default_document dp) "defaultTeam" = Normal dt ->
  ts <> [] \/ truthy dt = false ->
  (Settings.init dp up w).1 = Normal (default_document dp) /\
  files (fs (Settings.init dp up w).2) = files (fs w) /\
  dirs (fs (Settings.init dp up w).2) = dirs (fs w) /\
  console (Settings.init dp up w).2 = console w ++ [e].
Proof.
  intros Hread Ht Hd Hno.
  destruct (readFileSync_world dp (Some (config_json w)) (configured w))
    as (c & d & Hw & Hf & Hdir).
  rewrite Hread in Hw. injection Hw as <- ->.
  rewrite init_eq. unfold load_config, try_, load_or_upgrade.
  rewrite bind_unfold, Hread.
  rewrite (load_defaults_no_seed dp _ e _ ts dt Ht Hd Hno).
  simpl in *.
  destruct (strictEq _ (Bool false)); simpl; by rewrite Hf, Hdir.
Qed.

Lemma init_falls_back_to_defaults_witness :
  (Settings.init prefs_with_team keep corrupt_world).1 =
    Normal (default_document prefs_with_team) /\
  files (fs (Settings.init prefs_with_team keep corrupt_world).2) =
    files (fs corrupt_world) /\
  dirs (fs (Settings.init prefs_with_team keep corrupt_world).2) =
    dirs (fs corrupt_world) /\
  console (Settings.init prefs_with_team keep corrupt_world).2 =
    console corrupt_world ++ [SyntaxError].
Proof.
  apply (init_falls_back_to_defaults prefs_with_team keep corrupt_world
           SyntaxError (configured corrupt_world) [mine] seed_team).
  - reflexivity.
  - reflexivity.
  - reflexivity.
  - left. discriminate.
Defined.

(** Reading a file that holds the rendering of a document of another
    version: the document is returned as parsed. *)
Lemma readFileSync_stale dp p config v w :
  script (fs w) = [] ->
  files (fs w) !! p = Some (JsonText config) ->
  isJSON config = true ->
  get config "version" = Normal v ->
  strictEq v (currentVersion dp) = false ->
  readFileSync dp (Some p) w = (Normal config, w).
Proof.
  intros Hs Hf Hj Hv He.
  unfold readFileSync, fs_readFileSync, next_outcome. js_unfold.
  rewrite Hs. cbn -[JSON_parse]. rewrite Hf.
  rewrite (isJSON_parse _ Hj). cbn -[get].
  rewrite Hv. cbn -[strictEq].
  rewrite He. f_equal.
  by destruct w as [[] ? ? ? ? ? ? ?].
Qed.

(** Writing into a directory that is there. *)
Lemma writeFileSync_existing_directory dp config v w p :
  script (fs w) = [] ->
  get config "version" = Normal v ->
  strictEq v (currentVersion dp) = true ->
  is_dir (fs w) (path_dirname p) = true ->
  is_dir (fs w) p = false ->
  writeFileSync dp (Some p) config w =
    (Normal (),
     with_fs {| dirs := dirs (fs w);
                files := <[p := data_text (JSON_stringify config)]> (files (fs w));
                script := [] |} w).
Proof.
  intros Hs Hv He Hdir Hnd.
  unfold writeFileSync.
  rewrite bind_unfold. unfold lift at 1. rewrite Hv, He. cbn [negb].
  rewrite bind_unfold. cbn [path_arg mret JS_ret].
  rewrite bind_unfold. unfold on_fs at 1, fs_existsSync. rewrite Hdir.
  cbn [orb negb].
  rewrite bind_unfold. cbn [mret JS_ret].
  unfold on_fs, fs_writeFileSync, next_outcome. cbn [with_fs fs].
  rewrite Hs, Hnd, Hdir. cbn [negb]. rewrite Hs. reflexivity.
Qed.

Lemma path_dirname_config_json w : path_dirname (config_json w) = userData w.
Proof. apply removelast_last. Qed.

(** X9.  A document of another version on disk: [init] hands it, as
    parsed and without the defaults, to [upgrade]; when the result is at the
    current version and the data directory is there, [init] returns that
    result, the file holds its rendering and nothing is logged. *)
Theorem init_upgrades_stale_document dp up w config v config' v' :
  script (fs w) = [] ->
  files (fs w) !! config_json w = Some (JsonText config) ->
  isJSON config = true ->
  get config "version" = Normal v ->
  strictEq v (currentVersion dp) = false ->
  up config = Normal config' ->
  get config' "version" = Normal v' ->
  strictEq v' (currentVersion dp) = true ->
  is_dir (fs w) (userData w) = true ->
  is_dir (fs w) (config_json w) = false ->
  (Settings.init dp up w).1 = Normal config' /\
  files (fs (Settings.init dp up w).2) =
    <[config_json w := data_text (JSON_stringify config')]> (files (fs w)) /\
  console (Settings.init dp up w).2 = console w.
Proof.
  intros Hs Hf Hj Hv He Hup Hv' He' Hdir Hnd.
  assert (Hload : load_config dp up (Some (config_json w)) (configured w) =
    (Normal config',
     with_fs {| dirs := dirs (fs w);
                files := <[config_json w := data_text (JSON_stringify config')]>
                           (files (fs w));
                script := [] |} (configured w))).
  { unfold load_config, try_, load_or_upgrade.
    rewrite bind_unfold.
    rewrite (readFileSync_stale dp _ config v (configured w)) by done.
    rewrite bind_unfold. unfold lift at 1. rewrite Hv, He. cbn [negb].
    rewrite bind_unfold. unfold lift at 1, upgrade. rewrite Hup.
    rewrite bind_unfold.
    rewrite (writeFileSync_existing_directory dp config' v' (configured w))
      by (by rewrite ?path_dirname_config_json).
    reflexivity. }
  rewrite init_eq, Hload.
  destruct (has_properties_get config' "enableHardwareAcceleration"
              (get_has_properties _ _ _ Hv')) as [a ->].
  by destruct (strictEq a (Bool false)).
Qed.

Lemma init_upgrades_stale_document_witness :
  (Settings.init prefs_v1 to_v1 stale_world).1 = Normal new_doc /\
  files (fs (Settings.init prefs_v1 to_v1 stale_world).2) =
    <[config_json stale_world := data_text (JSON_stringify new_doc)]>
      (files (fs stale_world)) /\
  console (Settings.init prefs_v1 to_v1 stale_world).2 = console stale_world.
Proof.
  apply (init_upgrades_stale_document prefs_v1 to_v1 stale_world stale_doc
           (Num 0) new_doc (Num 1)); reflexivity.
Defined.

Lemma strictEq_Num v n : strictEq v (Num n) = true <-> v = Num n.
Proof.
  destruct v; simpl; split; try done.
  - by intros ->%bool_decide_eq_true_1.
  - intros [= ->]. by apply bool_decide_eq_true_2.
Qed.

Lemma currentVersion_default dp n :
  assoc "version" dp = Some (Num n) ->
  currentVersion dp = Num n /\
  get (default_document dp) "version" = Normal (Num n).
Proof.
  intros H. unfold currentVersion. rewrite H. split; [done|].
  simpl. by rewrite (assoc_jsonProps _ _ _ H).
Qed.

(** X10.  Every document [init] returns is at the current version (the
    default version being a number), so [save] never refuses it with the
    version error. *)
Theorem init_result_can_be_saved dp up w config w1 n :
  assoc "version" dp = Some (Num n) ->
  Settings.init dp up w = (Normal config, w1) ->
  get config "version" = Normal (Num n) /\
  forall w2 m, (Settings.save dp config w2).1 <> Throw (Error m).
Proof.
  intros Hn Hinit.
  destruct (currentVersion_default dp n Hn) as [Hcv Hdv].
  assert (Hv : get config "version" = Normal (Num n)).
  { rewrite init_eq in Hinit.
    destruct (load_config dp up (Some (config_json w)) (configured w))
      as [[c|e] w0] eqn:Hload; [|done].
    assert (c = config) as ->.
    { destruct (get c "enableHardwareAcceleration") as [a|]; [|done].
      destruct (strictEq a (Bool false)); by injection Hinit. }
    clear Hinit. unfold load_config, try_ in Hload.
    destruct (load_or_upgrade dp up (Some (config_json w)) (configured w))
      as [[c|e] w2] eqn:Htry.
    - injection Hload as -> ->. unfold load_or_upgrade in Htry.
      apply bind_Normal_inv in Htry as (c & w3 & _ & H).
      apply bind_Normal_inv in H as (v' & w4 & Hv' & H).
      apply lift_Normal_inv in Hv' as [Hv' ->].
      destruct (strictEq v' (currentVersion dp)) eqn:E'; cbn [negb] in H.
      + apply mret_Normal_inv in H as [-> _].
        rewrite Hcv in E'. apply strictEq_Num in E' as ->. done.
      + apply bind_Normal_inv in H as (c1 & w5 & _ & H).
        apply bind_Normal_inv in H as ([] & w6 & Hw & H).
        apply mret_Normal_inv in H as [-> _].
        apply writeFileSync_Normal_guard in Hw as (v1 & Hv1 & E1).
        rewrite Hcv in E1. by apply strictEq_Num in E1 as ->.
    - unfold load_defaults in Hload. rewrite loadDefault_eq in Hload.
      fold (default_document dp) in Hload.
      apply bind_Normal_inv in Hload as (? & w3 & _ & H).
      apply bind_Normal_inv in H as (c & w4 & Hc & H).
      apply lift_Normal_inv in Hc as [[= <-] ->].
      apply bind_Normal_inv in H as (teams & w5 & _ & H).
      apply bind_Normal_inv in H as (len & w6 & _ & H).
      apply bind_Normal_inv in H as (seed & w7 & _ & H).
      destruct (truthy seed).
      + apply bind_Normal_inv in H as (dt & w8 & _ & H).
        apply bind_Normal_inv in H as (teams' & w9 & _ & H).
        apply bind_Normal_inv in H as ([] & w10 & Hw & H).
        apply mret_Normal_inv in H as [-> _].
        apply writeFileSync_Normal_guard in Hw as (v1 & Hv1 & E1).
        rewrite Hcv in E1. by apply strictEq_Num in E1 as ->.
      + by apply mret_Normal_inv in H as [-> _]. }
  split; [done|]. intros w2 m. unfold Settings.save.
  apply (writeFileSync_passes_guard dp _ config (Num n)); [done|].
  rewrite Hcv. by apply strictEq_Num.
Qed.

Lemma init_result_can_be_saved_witness :
  get merged_old_doc "version" = Normal (Num 1) /\
  forall w2 m, (Settings.save prefs_v1 merged_old_doc w2).1 <> Throw (Error m).
Proof.
  apply (init_result_can_be_saved prefs_v1 keep current_world merged_old_doc
           (Settings.init prefs_v1 keep current_world).2 1); reflexivity.
Defined.

(** ** The draft of [init] *)

(** The draft's [init] on a platform other than win32. *)
Lemma Part000_init_eq dp up config0 w :
  platform w <> "win32" ->
  Part000.init dp up config0 w =
    match load_config dp up (Some (config_json w)) w with
    | (Normal config, w1) =>
        match get config "enableHardwareAcceleration" with
        | Normal a =>
            if strictEq a (Bool false)
            then (Normal Undefined, (app_disableHardwareAcceleration w1).2)
            else (Normal Undefined, w1)
        | Throw e => (Throw e, w1)
        end
    | (Throw e, w1) => (Throw e, w1)
    end.
Proof.
  intros Hos.
  unfold Part000.init, Part000.init_body, config_json.
  rewrite bind_unfold. rewrite bind_unfold. cbv beta iota zeta.
  rewrite bind_unfold.
  pose proof (blind_platform _ w (blind_load_config dp up
                (Some (userData w ++ ["config.json"])))) as Hp.
  destruct (load_config _ _ _ _) as [[doc|e] w1] eqn:E; [|done].
  rewrite bind_unfold. cbv beta iota. simpl in Hp.
  rewrite Hp, bool_decide_eq_false_2 by done.
  rewrite bind_unfold. cbn [mret JS_ret].
  rewrite bind_unfold. unfold lift at 1.
  destruct (get doc "enableHardwareAcceleration") as [a|e]; [|done].
  rewrite bind_unfold.
  destruct (strictEq a (Bool false)); done.
Qed.

(** X11.  Off win32 the draft's [init] does to the disk, the console and
    hardware acceleration what [init] of settings.js does, and throws what it
    throws; but it returns [undefined] where settings.js returns the
    document, and it leaves the module's [configFile] alone. *)
Theorem draft_init_off_win32 dp up config0 w :
  platform w <> "win32" ->
  (Part000.init dp up config0 w).1 =
    match (Settings.init dp up w).1 with
    | Normal _ => Normal Undefined
    | Throw e => Throw e
    end /\
  fs (Part000.init dp up config0 w).2 = fs (Settings.init dp up w).2 /\
  console (Part000.init dp up config0 w).2 = console (Settings.init dp up w).2 /\
  hardwareAccelerationDisabled (Part000.init dp up config0 w).2 =
    hardwareAccelerationDisabled (Settings.init dp up w).2 /\
  configFile (Part000.init dp up config0 w).2 = configFile w.
Proof.
  intros Hos. rewrite (Part000_init_eq dp up config0 w Hos), init_eq.
  destruct (da_load_config dp up (Some (config_json w)) (fs w))
    as (c & d & logs & Hrun).
  rewrite (Hrun w eq_refl), (Hrun (configured w) eq_refl).
  destruct c as [config|e]; [|done].
  destruct (get config "enableHardwareAcceleration") as [a|e]; [|done].
  by destruct (strictEq a (Bool false)).
Qed.

Lemma draft_init_off_win32_witness :
  (Part000.init prefs_v1 keep Undefined current_world).1 =
    match (Settings.init prefs_v1 keep current_world).1 with
    | Normal _ => Normal Undefined
    | Throw e => Throw e
    end /\
  fs (Part000.init prefs_v1 keep Undefined current_world).2 =
    fs (Settings.init prefs_v1 keep current_world).2 /\
  console (Part000.init prefs_v1 keep Undefined current_world).2 =
    console (Settings.init prefs_v1 keep current_world).2 /\
  hardwareAccelerationDisabled
    (Part000.init prefs_v1 keep Undefined current_world).2 =
    hardwareAccelerationDisabled (Settings.init prefs_v1 keep current_world).2 /\
  configFile (Part000.init prefs_v1 keep Undefined current_world).2 =
    configFile current_world.
Proof.
  apply (draft_init_off_win32 prefs_v1 keep Undefined current_world).
  discriminate.
Defined.

(** ** The policy store functions, in general *)

(** [find_item] fails exactly when no entry has the name. *)
Lemma find_item_Throw items item e :
  find_item items item = Throw e ->
  e = RegistryItemNotFoundException /\ item ∉ (item_name <$> items).
Proof.
  induction items as [|it rest IH]; simpl.
  - intros [= <-]. split; [done|]. apply not_elem_of_nil.
  - case_bool_decide as E; [done|]. intros [-> Hn]%IH. split; [done|].
    rewrite not_elem_of_cons. done.
Qed.

Lemma find_item_Normal items item v :
  find_item items item = Normal v ->
  exists it, it ∈ items /\ item_name it = item /\ item_value it = v.
Proof.
  induction items as [|it rest IH]; simpl; [done|].
  case_bool_decide as E.
  - intros [= <-]. exists it. split; [apply list_elem_of_here|done].
  - intros (it' & Hin & Hit)%IH. exists it'.
    split; [by apply list_elem_of_further|done].
Qed.

(** X12.  When the library hands the entries of the key to the callback,
    [getRegistryItemValue] throws [RegistryItemNotFoundException] if no entry
    has exactly the name asked for, and returns [undefined] if one has. *)
Theorem getRegistryItemValue_not_found reg regKey item items :
  reg (key_hive regKey) (key_name regKey) = CallbackItems items ->
  (item ∉ (item_name <$> items) ->
     getRegistryItemValue reg regKey item = Throw RegistryItemNotFoundException) /\
  (item ∈ (item_name <$> items) ->
     getRegistryItemValue reg regKey item = Normal Undefined).
Proof.
  intros Hr. unfold getRegistryItemValue, values. rewrite Hr.
  destruct (find_item items item) as [v|e] eqn:E; simpl.
  - apply find_item_Normal in E as (it & Hin & <- & _). split; [|done].
    intros []. apply list_elem_of_fmap. by exists it.
  - apply find_item_Throw in E as [-> Hn]. split; [done|]. by intros ?.
Qed.

Lemma getRegistryItemValue_not_found_witness :
  ("AllowEverything" ∉
     (item_name <$> [{| item_name := "PreventAddNewServer"; item_value := Num 1 |}]) ->
   getRegistryItemValue prevent_policy
     {| key_hive := HKCU; key_name := policies_key |} "AllowEverything"
     = Throw RegistryItemNotFoundException) /\
  ("AllowEverything" ∈
     (item_name <$> [{| item_name := "PreventAddNewServer"; item_value := Num 1 |}]) ->
   getRegistryItemValue prevent_policy
     {| key_hive := HKCU; key_name := policies_key |} "AllowEverything"
     = Normal Undefined).
Proof.
  apply (getRegistryItemValue_not_found prevent_policy
           {| key_hive := HKCU; key_name := policies_key |} "AllowEverything").
  reflexivity.
Defined.

(** What one lookup of [getRegistryItemValue] can throw. *)
Lemma getRegistryItemValue_Throw reg regKey item e :
  getRegistryItemValue reg regKey item = Throw e ->
  e = RegistryItemNotFoundException \/
  reg (key_hive regKey) (key_name regKey) = ValuesThrows e.
Proof.
  unfold getRegistryItemValue, values.
  destruct (reg (key_hive regKey) (key_name regKey)) as [|items| |e'];
    simpl; try done.
  - intros [= <-]. by left.
  - destruct (find_item items item) as [v|e'] eqn:E; simpl; [done|].
    intros [= <-]. left. by apply find_item_Throw in E as [-> _].
  - intros [= <-]. by right.
Qed.

Lemma getRegistryItemValue_library_throws reg regKey item e :
  reg (key_hive regKey) (key_name regKey) = ValuesThrows e ->
  getRegistryItemValue reg regKey item = Throw e.
Proof. intros Hr. unfold getRegistryItemValue, values. by rewrite Hr. Qed.

(** X13.  [isAddingNewServerPreventedByGPO] swallows every lookup failure
    of its own: unless the registry library itself throws something else, it
    returns [false].  What the library throws for the user hive is rethrown
    at once; what it throws for the machine hive is rethrown when the user
    hive did not throw. *)
Theorem isAddingNewServerPreventedByGPO_failures reg :
  ((forall h e, reg h policies_key = ValuesThrows e ->
                e = RegistryItemNotFoundException) ->
   Settings.isAddingNewServerPreventedByGPO reg = Normal false) /\
  (forall e,
     reg HKCU policies_key = ValuesThrows e ->
     e <> RegistryItemNotFoundException ->
     Settings.isAddingNewServerPreventedByGPO reg = Throw e) /\
  (forall e,
     (forall e', reg HKCU policies_key = ValuesThrows e' ->
                 e' = RegistryItemNotFoundException) ->
     reg HKLM policies_key = ValuesThrows e ->
     e <> RegistryItemNotFoundException ->
     Settings.isAddingNewServerPreventedByGPO reg = Throw e).
Proof.
  assert (Hlookup : forall h,
    (forall e, reg h policies_key = ValuesThrows e ->
               e = RegistryItemNotFoundException) ->
    try_catch
      (regItemValue ← getRegistryItemValue reg
                        {| key_hive := h; key_name := policies_key |}
                        "PreventAddNewServer";
       if strictEq regItemValue (Num 1) then mret (Some true) else mret None)
      (fun e => if negb (is_RegistryItemNotFoundException e) then Throw e
                else mret None) = Normal None).
  { intros h Hh.
    destruct (getRegistryItemValue_cases reg
                {| key_hive := h; key_name := policies_key |}
                "PreventAddNewServer") as [->|[e He]]; [done|].
    rewrite He. simpl.
    destruct (getRegistryItemValue_Throw _ _ _ _ He) as [->|Hr]; [done|].
    by rewrite (Hh e Hr). }
  assert (Hfail : forall h e,
    reg h policies_key = ValuesThrows e ->
    e <> RegistryItemNotFoundException ->
    try_catch
      (regItemValue ← getRegistryItemValue reg
                        {| key_hive := h; key_name := policies_key |}
                        "PreventAddNewServer";
       if strictEq regItemValue (Num 1) then mret (Some true) else mret None)
      (fun e => if negb (is_RegistryItemNotFoundException e) then Throw e
                else mret None) = Throw e).
  { intros h e Hr Hne.
    rewrite (getRegistryItemValue_library_throws reg
               {| key_hive := h; key_name := policies_key |} _ e Hr).
    simpl. destruct e; done. }
  unfold Settings.isAddingNewServerPreventedByGPO.
  split; [|split].
  - intros H. rewrite !Hlookup by (intros e; apply H). done.
  - intros e Hr Hne. by rewrite (Hfail HKCU e Hr Hne).
  - intros e Hu Hr Hne. rewrite (Hlookup HKCU Hu). simpl.
    by rewrite (Hfail HKLM e Hr Hne).
Qed.

Lemma isAddingNewServerPreventedByGPO_failures_witness :
  Settings.isAddingNewServerPreventedByGPO prevent_policy = Normal false /\
  Settings.isAddingNewServerPreventedByGPO failing_library =
    Throw (SystemError "EPERM").
Proof.
  split.
  - apply (proj1 (isAddingNewServerPreventedByGPO_failures prevent_policy)).
    intros h e. unfold prevent_policy. simpl. discriminate.
  - apply (proj1 (proj2 (isAddingNewServerPreventedByGPO_failures
                           failing_library)) (SystemError "EPERM")).
    + reflexivity.
    + discriminate.
Defined.

(** ** [getDefaultServerListFromGPO], in general *)

Lemma string_app_assoc (a b c : string) : (a +:+ b) +:+ c = a +:+ (b +:+ c).
Proof.
  induction a as [|x a IH]; [done|].
  change (String x ((a +:+ b) +:+ c) = String x (a +:+ (b +:+ c))).
  by f_equal.
Qed.

Lemma split_nonempty sep s : split sep s <> [].
Proof.
  destruct s as [|c rest]; simpl; [done|].
  case_bool_decide; [done|]. by destruct (split sep rest).
Qed.

(** The tokens of a name, put together again, are the name without its
    separators. *)
Lemma split_without sep s :
  foldr String.append "" (split sep s) = without sep s.
Proof.
  induction s as [|c rest IH]; simpl; [done|].
  case_bool_decide as E; simpl; [done|].
  pose proof (split_nonempty sep rest) as Hne.
  destruct (split sep rest) as [|t ts]; [done|].
  rewrite <- IH. reflexivity.
Qed.

Lemma string_app_empty (a : string) : a +:+ "" = a.
Proof.
  induction a as [|x a IH]; [done|].
  change (String x (a +:+ "") = String x a). by f_equal.
Qed.

Lemma append_tokens_from_string toks a :
  foldl (fun acc tok => Str (toString acc +:+ tok)) (Str a) toks =
    Str (a +:+ foldr String.append "" toks).
Proof.
  revert a. induction toks as [|t ts IH]; intros a; simpl.
  - by rewrite string_app_empty.
  - rewrite IH. by rewrite string_app_assoc.
Qed.

(** The name the first inner loop builds. *)
Lemma append_tokens_name s :
  append_tokens (split "|"%char s) 0 Undefined =
    (Str ("undefined" +:+ without "|"%char s), length (split "|"%char s)).
Proof.
  unfold append_tokens. rewrite drop_0, Nat.max_0_l. f_equal.
  pose proof (split_nonempty "|"%char s) as Hne.
  rewrite <- split_without.
  destruct (split "|"%char s) as [|t ts]; [done|].
  simpl foldl. change (toString Undefined) with "undefined".
  rewrite append_tokens_from_string. simpl. by rewrite string_app_assoc.
Qed.

(** The first token of a name is a string: the index branch is never taken. *)
Lemma first_token_not_number (toks : list string) :
  negb (bool_decide (typeof (default Undefined (Str <$> toks !! 0%nat)) = "number"))
    = true.
Proof. by destruct toks. Qed.

(** One round of the loop over [registryItems]. *)
Lemma server_loop_step fuel items i servers item :
  items !! i = Some item ->
  server_loop (S fuel) items i servers =
    match items !! length (split "|"%char (item_name item)) with
    | None => Some (Throw (TypeError "value"))
    | Some at_i =>
        server_loop fuel items (S (length (split "|"%char (item_name item))))
          (servers ++ [{| server_name :=
                            Str ("undefined" +:+ without "|"%char (item_name item));
                          server_index := Bool false;
                          server_url := item_value at_i |}])
    end.
Proof.
  intros Hi. cbn [server_loop]. rewrite Hi. cbv zeta.
  rewrite first_token_not_number, append_tokens_name. reflexivity.
Qed.

Lemma server_loop_read_off fuel items : forall i servers result,
  server_loop fuel items i servers = Some (Normal result) ->
  Forall (read_off items) servers -> Forall (read_off items) result.
Proof.
  induction fuel as [|fuel IH]; intros i servers result; [done|].
  destruct (items !! i) as [item|] eqn:Hi.
  - rewrite (server_loop_step _ _ _ _ _ Hi).
    destruct (items !! length (split "|"%char (item_name item)))
      as [at_i|] eqn:Hat; [|done].
    intros Hrun Hs. apply (IH _ _ _ Hrun).
    apply Forall_app. split; [done|]. apply Forall_singleton.
    split; [done|]. split.
    + exists item. split; [by eapply list_elem_of_lookup_2|done].
    + exists at_i. split; [by eapply list_elem_of_lookup_2|done].
  - simpl. rewrite Hi. by intros [= <-].
Qed.

(** The entries the loop of [getDefaultServerListFromGPO] runs over. *)
Lemma getDefaultServerListFromGPO_eq fuel reg :
  Settings.getDefaultServerListFromGPO fuel reg =
    match reg HKCU server_list_key with
    | CallbackItems items => server_loop fuel items 0 []
    | CallbackLater => server_loop fuel [] 0 []
    | CallbackError | ValuesThrows _ => Some (Throw (ReferenceError "Registry"))
    end.
Proof.
  unfold Settings.getDefaultServerListFromGPO, values. simpl.
  by destruct (reg HKCU server_list_key).
Qed.

(** X14.  Every server [getDefaultServerListFromGPO] returns has [false]
    as index, a name that is "undefined" followed by the name of a policy
    entry with its separators removed, and the value of a policy entry as
    url: no order index is ever decoded. *)
Theorem getDefaultServerListFromGPO_servers fuel reg servers :
  Settings.getDefaultServerListFromGPO fuel reg = Some (Normal servers) ->
  servers = [] \/
  exists items,
    reg HKCU server_list_key = CallbackItems items /\
    Forall (read_off items) servers.
Proof.
  rewrite getDefaultServerListFromGPO_eq.
  destruct (reg HKCU server_list_key) as [|items| |e]; try done.
  - intros H. right. exists items. split; [done|].
    by apply (server_loop_read_off _ _ _ _ _ H).
  - destruct fuel as [|fuel]; [done|]. simpl. intros [= <-]. by left.
Qed.

Lemma getDefaultServerListFromGPO_servers_witness :
  [{| server_name := Str "undefinedAlpha"; server_index := Bool false;
      server_url := Str "https://b" |}] = [] \/
  exists items,
    two_servers HKCU server_list_key = CallbackItems items /\
    Forall (read_off items)
      [{| server_name := Str "undefinedAlpha"; server_index := Bool false;
          server_url := Str "https://b" |}].
Proof.
  apply (getDefaultServerListFromGPO_servers 3 two_servers). reflexivity.
Defined.

(** X15.  When the first policy entry's name has more tokens than there
    are further entries, which is so for every list of one entry,
    [getDefaultServerListFromGPO] throws a TypeError: the url is read past
    the end of the list. *)
Theorem getDefaultServerListFromGPO_short_list fuel reg item rest :
  reg HKCU server_list_key = CallbackItems (item :: rest) ->
  length rest < length (split "|"%char (item_name item)) ->
  Settings.getDefaultServerListFromGPO (S fuel) reg =
    Some (Throw (TypeError "value")).
Proof.
  intros Hr Hlen. rewrite getDefaultServerListFromGPO_eq, Hr.
  rewrite (server_loop_step fuel (item :: rest) 0 [] item eq_refl).
  rewrite (lookup_ge_None_2 (item :: rest)); [done|]. simpl. lia.
Qed.

Lemma getDefaultServerListFromGPO_short_list_witness :
  Settings.getDefaultServerListFromGPO 1 one_server =
    Some (Throw (TypeError "value")).
Proof.
  apply (getDefaultServerListFromGPO_short_list 0 one_server
           {| item_name := "1|Alpha"; item_value := Str "https://a" |} []).
  - reflexivity.
  - simpl. lia.
Defined.

(** X16.  [getDefaultServerListFromGPO] depends on the user hive only: two
    policy stores with the same reply for the user hive's server list give
    the same result; when that lookup fails the function throws the
    ReferenceError of its [catch] clause and the machine hive is never read;
    with no entries the list is empty. *)
Theorem getDefaultServerListFromGPO_user_hive_only fuel reg reg' :
  (reg HKCU server_list_key = reg' HKCU server_list_key ->
   Settings.getDefaultServerListFromGPO fuel reg =
     Settings.getDefaultServerListFromGPO fuel reg') /\
  (reg HKCU server_list_key = CallbackError \/
   (exists e, reg HKCU server_list_key = ValuesThrows e) ->
   Settings.getDefaultServerListFromGPO fuel reg =
     Some (Throw (ReferenceError "Registry"))) /\
  (reg HKCU server_list_key = CallbackLater \/
   reg HKCU server_list_key = CallbackItems [] ->
   Settings.getDefaultServerListFromGPO (S fuel) reg = Some (Normal [])).
Proof.
  rewrite !getDefaultServerListFromGPO_eq. split; [|split].
  - by intros ->.
  - by intros [->|[e ->]].
  - by intros [->| ->].
Qed.

Lemma getDefaultServerListFromGPO_user_hive_only_witness :
  Settings.getDefaultServerListFromGPO 5 broken_user_hive =
    Some (Throw (ReferenceError "Registry")).
Proof.
  apply (proj1 (proj2 (getDefaultServerListFromGPO_user_hive_only
                         5 broken_user_hive broken_user_hive))).
  left. reflexivity.
Defined.

(** ** [mergeDefaultTeams], in general *)

Lemma json_list_copies l : json_list (List.map jsonElement l).
Proof.
  unfold json_list. induction l as [|x r IH]; [done|].
  simpl. by rewrite jsonElement_isJSON, IH.
Qed.

Lemma json_list_app l1 l2 : json_list l1 -> json_list l2 -> json_list (l1 ++ l2).
Proof. unfold json_list. intros H1 H2. by rewrite forallb_app, H1, H2. Qed.

(** X18.  [mergeDefaultTeams] is not idempotent: given its own result,
    with server management on it puts the vendor defaults in front once
    more; with server management off it returns the list unchanged. *)
Theorem mergeDefaultTeams_again bc servers merged :
  mergeDefaultTeams bc servers = Normal merged ->
  json_list (defaultTeams bc) ->
  mergeDefaultTeams bc merged =
    Normal (if enableServerManagement bc then defaultTeams bc ++ merged
            else merged).
Proof.
  rewrite !mergeDefaultTeams_eq. intros [= <-] Hd.
  rewrite (json_list_copy _ Hd).
  destruct (enableServerManagement bc).
  - rewrite (json_list_copy (_ ++ _)); [done|].
    apply json_list_app; [done|apply json_list_copies].
  - by rewrite app_nil_r.
Qed.

Lemma mergeDefaultTeams_again_witness :
  mergeDefaultTeams vendor_a (defaultTeams vendor_a ++ user_a) =
    Normal (defaultTeams vendor_a ++ defaultTeams vendor_a ++ user_a).
Proof.
  apply (mergeDefaultTeams_again vendor_a user_a
           (defaultTeams vendor_a ++ user_a)); reflexivity.
Defined.

(** ** [loadDefault] and what [read] returns *)

(** X19.  [loadDefault] never throws and returns a JSON document; when the
    default preferences are JSON data it returns an equal copy of them. *)
Theorem loadDefault_copy dp :
  exists doc,
    loadDefault dp = Normal doc /\
    isJSON doc = true /\
    (isJSON (Obj dp) = true -> doc = Obj dp).
Proof.
  exists (default_document dp). split; [apply loadDefault_eq|]. split.
  - apply (jsonElement_isJSON (Obj dp)).
  - intros H. unfold default_document. rewrite <- jsonValue_Obj.
    by apply isJSON_jsonValue.
Qed.

Lemma loadDefault_copy_witness :
  exists doc,
    loadDefault prefs_seed_team = Normal doc /\
    isJSON doc = true /\
    (isJSON (Obj prefs_seed_team) = true -> doc = Obj prefs_seed_team).
Proof. apply (loadDefault_copy prefs_seed_team). Defined.

Lemma keys_jsonProps k ps : k ∈ keys (jsonProps ps) -> k ∈ keys ps.
Proof.
  induction ps as [|[k' x] r IH]; [done|].
  change (keys ((k', x) :: r)) with (k' :: keys r).
  simpl jsonProps. rewrite elem_of_cons.
  destruct x; try (intros H; right; by apply IH);
    change (keys ((k', ?y) :: ?l)) with (k' :: keys l);
    rewrite elem_of_cons; intros [->|H]; auto.
Qed.

Lemma distinct_jsonProps ps : NoDup (keys ps) -> NoDup (keys (jsonProps ps)).
Proof.
  induction ps as [|[k x] r IH]; [done|].
  change (keys ((k, x) :: r)) with (k :: keys r).
  intros [Hk Hr]%NoDup_cons. simpl jsonProps.
  destruct x; try (by apply IH);
    change (keys ((k, ?y) :: ?l)) with (k :: keys l);
    apply NoDup_cons; split; auto; intros H; by apply Hk, keys_jsonProps.
Qed.

(** X20.  [read()] of a current document: a property the file has reads
    as the file has it, every other property reads as in the default
    document. *)
Theorem read_fills_in_defaults dp p ps v w :
  configFile w = Some p ->
  script (fs w) = [] ->
  files (fs w) !! p = Some (JsonText (Obj ps)) ->
  isJSON (Obj ps) = true ->
  NoDup (keys ps) -> NoDup (keys dp) ->
  assoc "version" ps = Some v ->
  strictEq v (currentVersion dp) = true ->
  exists config,
    Settings.read dp w = (Normal config, w) /\
    forall k,
      get config k =
        match assoc k ps with
        | Some x => Normal x
        | None => get (default_document dp) k
        end.
Proof.
  intros Hp Hs Hf Hj Hps Hdp Hv He.
  exists (merge (default_document dp) (Obj ps)). split.
  - unfold Settings.read. rewrite Hp.
    apply (readFileSync_current dp p (Obj ps) v); try done.
    simpl. by rewrite Hv.
  - intros k. unfold default_document.
    rewrite get_merge by (by try apply distinct_jsonProps).
    by destruct (assoc k ps).
Qed.

Lemma read_fills_in_defaults_witness :
  exists config,
    Settings.read prefs_seed_team current_world = (Normal config, current_world) /\
    forall k,
      get config k =
        match assoc k [("version", Num 1); ("teams", Arr [mine])] with
        | Some x => Normal x
        | None => get (default_document prefs_seed_team) k
        end.
Proof.
  apply (read_fills_in_defaults prefs_seed_team config_path
           [("version", Num 1); ("teams", Arr [mine])] (Num 1) current_world);
    try reflexivity; apply (bool_decide_unpack _); vm_compute; exact I.
Defined.
